(** * my-virtual-land: grid generators, interaction state and renderers

    A shallow embedding of [src/app/page.js].  The source holds four
    stand-alone pages (the basic grid [VirtualLandMap], the Voronoi map
    [GoogleMapClone], the city [VirtualCity] and the natural map
    [NaturalLandMap]); each page is embedded in a module of its own,
    because the pages reuse the names [GRID_SIZE], [PLOT_SIZE], [GAP] and
    [LandPlot].

    Numbers.  A JavaScript Number is an IEEE-754 binary64 value, which is
    what Rocq's primitive [float] is: [+], [*], [/], [<] below are the
    hardware operations, specified by the Standard Library's [SpecFloat].
    Loop counters and array indices, which only ever hold small integers,
    are kept as [Z] and injected into [float] where the source mixes them
    with fractional values.  (A counter above 2^53 or an id above 1e21,
    where a double stops being an exact integer or prints with an
    exponent, is outside this model; a grid of that size has more than
    2^106 records.) *)

From Stdlib Require Import ZArith List String Ascii Bool Lia Floats.
From Stdlib Require Import Decimal DecimalString DecimalPos DecimalZ FinFun.
From Equations Require Import Equations.
Import ListNotations.

Set Warnings "-inexact-float".
Open Scope Z_scope.

(* ===================================================================== *)
(** * The JavaScript fragment the pages use *)
(* ===================================================================== *)

Module JS.

(** An integer-valued Number, as the double that holds it. *)
Definition of_int (z : Z) : float :=
  SF2Prim (binary_normalize prec emax z 0 false).

(** [`${x}`] for an integer-valued Number: its decimal digits, with a
    leading minus sign when negative. *)
Definition toString (z : Z) : string :=
  NilZero.string_of_int (Z.to_int z).

(** [x > y] on Numbers. *)
Definition gt (x y : float) : bool := PrimFloat.ltb y x.

(** [Math.min] and [Math.max]: NaN if an argument is NaN, and -0 counts
    as smaller than +0. *)
Definition Math_min (a b : float) : float :=
  if is_nan a || is_nan b then nan
  else if PrimFloat.ltb a b then a
  else if PrimFloat.ltb b a then b
  else if get_sign a then a else b.

Definition Math_max (a b : float) : float :=
  if is_nan a || is_nan b then nan
  else if PrimFloat.ltb a b then b
  else if PrimFloat.ltb b a then a
  else if get_sign a then b else a.

(** [for (let x = start; x < N; x++) body], threading the state the
    body updates.  The loop stops when the test [x < N] fails. *)
Equations for_loop {S : Type} (N : Z) (body : Z -> S -> S) (x : Z) (s : S) : S
  by wf (Z.to_nat (N - x)) lt :=
  for_loop N body x s with Z_lt_dec x N := {
    | left _ => for_loop N body (x + 1) (body x s);
    | right _ => s }.
Next Obligation. lia. Qed.

(** The result of evaluating an expression that may throw. *)
Inductive completion (A : Type) : Type :=
  | Normal (a : A)
  | TypeError.
Arguments Normal {A} a.
Arguments TypeError {A}.

(** [a[i]]: [undefined] (here [None]) outside the array. *)
Definition index {A : Type} (a : list A) (i : Z) : option A :=
  if Z_lt_dec i 0 then None else nth_error a (Z.to_nat i).

(** A string inside a template literal; [undefined] prints as such. *)
Definition template (o : option string) : string :=
  match o with Some s => s | None => "undefined" end.

(** [Math.random()]: the page's generator consumes draws one after the
    other from the engine's source [rng]; the state is the number of
    draws consumed so far. *)
Definition Math_random (rng : nat -> float) (k : nat) : float * nat :=
  (rng k, S k).

(** The Number read back from a [Float32Array] slot, [Math.fround]: the
    double rounded to the nearest binary32 value, ties to even (24
    significant bits, exponents up to 2^128, subnormals down to 2^-149);
    too large a magnitude gives an infinity, and zeros, infinities and
    NaN are kept.  Every binary32 value is a double. *)
Definition Math_fround (x : float) : float :=
  match Prim2SF x with
  | S754_finite s m e => SF2Prim (binary_round_aux 24 128 s (Zpos m) e loc_Exact)
  | _ => x
  end.

(** The truth value of [selectedPlot], a string or [null], where the
    source tests it with [? :]: [null] and the empty string are falsy. *)
Definition truthy (o : option string) : bool :=
  match o with
  | Some EmptyString => false
  | Some _ => true
  | None => false
  end.

End JS.

(** The id of a grid plot, [`${x}-${z}`]. *)
Definition plot_id (x z : Z) : string :=
  (JS.toString x ++ "-" ++ JS.toString z)%string.

(** The position of a grid plot,
    [[(x - GRID_SIZE / 2) * (PLOT_SIZE + GAP), 0, (z - GRID_SIZE / 2) * (PLOT_SIZE + GAP)]]. *)
Definition plot_position (N : Z) (size gap : float) (x z : Z) : list float :=
  [ ((JS.of_int x - JS.of_int N / 2) * (size + gap))%float;
    0%float;
    ((JS.of_int z - JS.of_int N / 2) * (size + gap))%float ].

(* ===================================================================== *)
(** * Page 1: the basic grid, [VirtualLandMap] *)
(* ===================================================================== *)

Module Basic.

Definition GRID_SIZE : Z := 10.
Definition PLOT_SIZE : float := 1.0%float.
Definition GAP : float := 0.1%float.

Record Plot := { id : string; position : list float }.

(** The two nested loops of [VirtualLandMap], [plots.push] appending at
    the end, for a grid size, plot size and gap given as parameters. *)
Definition generate (N : Z) (size gap : float) : list Plot :=
  JS.for_loop N (fun x plots =>
    JS.for_loop N (fun z plots =>
      plots ++ [ {| id := plot_id x z;
                    position := plot_position N size gap x z |} ])
    0 plots)
  0 [].

Definition plots : list Plot := generate GRID_SIZE PLOT_SIZE GAP.

(** Colours of [LandPlot]. *)
Definition baseColor : string := "#1a1a1a".     (* Dark grey (Unsold) *)
Definition hoverColor : string := "#00f3ff".    (* Neon Cyan (Hover) *)
Definition selectedColor : string := "#bd00ff". (* Purple (Selected) *)

Record Material := { color : string; emissive : string }.

(** The [meshStandardMaterial] of [LandPlot]. *)
Definition LandPlot_material (isSelected hovered : bool) : Material :=
  {| color := if isSelected then selectedColor
              else if hovered then hoverColor else baseColor;
     emissive := if isSelected then selectedColor
                 else if hovered then hoverColor else "#000" |}.

(** The overlay of [VirtualLandMap] below the title:
    [selectedPlot ? <div>Selected: Plot #... BUY NOW</div> : <div>No plot selected</div>]. *)
Inductive Overlay :=
| PlotPanel (title price owner button : string)
| NoPlotSelected.

Definition overlay (selectedPlot : option string) : Overlay :=
  if JS.truthy selectedPlot then
    PlotPanel ("Selected: Plot #" ++ JS.template selectedPlot)
              "Price: 2.5 ETH" "Owner: Available" "BUY NOW"
  else NoPlotSelected.

End Basic.

(* ===================================================================== *)
(** * Page 2: the Voronoi map, [GoogleMapClone] *)
(* ===================================================================== *)

Module MapClone.

Definition MAP_SIZE : float := 100%float.
Definition LAND_COUNT : Z := 100.

Definition names : list string :=
  ["Greenwood"; "Sunnyvale"; "Riverdale"; "Highland"; "Westside";
   "Oakwood"; "Maple"; "Cedar"; "Pine"; "Elm"]%string.
Definition types : list string :=
  ["District"; "Estate"; "Heights"; "Park"; "Grove"; "Gardens"]%string.

(** [generateLandName]: [%] is the remainder that takes the sign of the
    dividend, [Z.rem]. *)
Definition generateLandName (id : Z) : string :=
  (JS.template (JS.index names (Z.rem id (Z.of_nat (List.length names))))
   ++ " " ++ JS.template (JS.index types (Z.rem id (Z.of_nat (List.length types))))
   ++ " " ++ JS.toString id)%string.

(** A 2D point [[x, y]]. *)
Definition point : Type := float * float.

Record Land := {
  id : Z;
  name : string;
  shape : option (list point);   (* null when the cell is out of bounds *)
  color : string }.

(** What [THREE.Shape] records. *)
Inductive PathCmd :=
| moveTo (x y : float)
| lineTo (x y : float)
| closePath.

(** What a mounted [LandPolygon] draws: the mesh outline and colour, the
    border line's vertex count and the contents of its [Float32Array],
    and the label. *)
Record Element := {
  mesh_shape : list PathCmd;
  mesh_color : string;
  border_count : Z;
  border_array : list float;
  label : option (list float * string) }.

(** [shape[i]] followed by a component access: a TypeError when
    [shape[i]] is undefined. *)
Definition point_at (shape : list point) (i : Z) : JS.completion point :=
  match JS.index shape i with
  | Some p => JS.Normal p
  | None => JS.TypeError
  end.

(** The [useMemo] that builds the [THREE.Shape]. *)
Definition threeShape (shape : list point) : JS.completion (list PathCmd) :=
  match point_at shape 0 with
  | JS.TypeError => JS.TypeError
  | JS.Normal p0 =>
    match
      JS.for_loop (Z.of_nat (List.length shape))
        (fun i acc =>
           match acc, point_at shape i with
           | JS.Normal s, JS.Normal p => JS.Normal (s ++ [lineTo (fst p) (snd p)])
           | _, _ => JS.TypeError
           end)
        1 (JS.Normal [moveTo (fst p0) (snd p0)])
    with
    | JS.Normal s => JS.Normal (s ++ [closePath])
    | JS.TypeError => JS.TypeError
    end
  end.

(** [shape.flat()]. *)
Definition flat (shape : list point) : list float :=
  flat_map (fun p => [fst p; snd p]) shape.

(** The colour of the mesh material: [isSelected ? "#4285F4" : color]. *)
Definition material_color (color : string) (isSelected : bool) : string :=
  if isSelected then "#4285F4" else color.

(** [LandPolygon]; [Normal None] is the component returning [null]. *)
Definition LandPolygon (shape : option (list point)) (color name : string)
    (isSelected : bool) : JS.completion (option Element) :=
  match shape with
  | None => JS.Normal None                       (* !shape *)
  | Some pts =>
    if Z.of_nat (List.length pts) <? 3 then JS.Normal None
    else
      match threeShape pts, point_at pts 0 with
      | JS.Normal s, JS.Normal p0 =>
        JS.Normal (Some
          {| mesh_shape := s;
             mesh_color := material_color color isSelected;
             border_count := Z.of_nat (List.length pts) + 1;
             border_array := map JS.Math_fround (flat pts ++ [fst p0; snd p0]);
             label := if isSelected
                      then Some ([fst p0; 2%float; snd p0], name) else None |})
      | _, _ => JS.TypeError
      end
  end.

(** One random point of the map. *)
Definition random_point (rng : nat -> float) (k : nat) : point * nat :=
  let '(a, k1) := JS.Math_random rng k in
  let '(b, k2) := JS.Math_random rng k1 in
  (((a - 0.5) * MAP_SIZE, (b - 0.5) * MAP_SIZE)%float, k2).

(** [Array.from({ length: count }, () => [...])]. *)
Definition random_points (count : Z) (rng : nat -> float) (k : nat)
    : list point * nat :=
  JS.for_loop count
    (fun _ st => let '(p, k') := random_point rng (snd st) in (fst st ++ [p], k'))
    0 ([], k).

(** [points.map((point, i) => ...)]; [cellPolygon] is d3-delaunay's
    [voronoi.cellPolygon], which the page treats as a black box that may
    answer [null]. *)
Definition make_lands (cellPolygon : Z -> option (list point))
    (points : list point) (rng : nat -> float) (k : nat) : list Land * nat :=
  JS.for_loop (Z.of_nat (List.length points))
    (fun i st =>
       let polygon := cellPolygon i in
       let '(r, k') := JS.Math_random rng (snd st) in
       let isPark := JS.gt r 0.85 in
       (fst st ++ [ {| id := i;
                       name := generateLandName i;
                       shape := polygon;
                       color := if isPark then "#C5E8C5" else "#F8F9FA" |} ],
        k'))
    0 ([], k).

(** The [lands] of [GoogleMapClone]; [voronoi] stands for
    [Delaunay.from(points).voronoi(bounds).cellPolygon]. *)
Definition lands (voronoi : list point -> Z -> option (list point))
    (rng : nat -> float) : list Land :=
  let '(points, k) := random_points LAND_COUNT rng 0%nat in
  fst (make_lands (voronoi points) points rng k).

(** The state of [GoogleMapClone]: two [useState] cells. *)
Record State := { selectedId : option Z; zoom : float }.

Definition init : State := {| selectedId := None; zoom := 15%float |}.

(** The events the page can receive.  [LandPolygon]'s mesh registers
    [onClick] only; pointer-enter and pointer-leave reach no handler. *)
Inductive Event :=
| Click (id : Z)
| PointerEnter (id : Z)
| PointerLeave (id : Z)
| ZoomIn
| ZoomOut.

Definition step (st : State) (e : Event) : State :=
  match e with
  | Click i => {| selectedId := Some i; zoom := zoom st |}
  | PointerEnter _ => st
  | PointerLeave _ => st
  | ZoomIn => {| selectedId := selectedId st;
                 zoom := JS.Math_min (zoom st + 5)%float 50%float |}
  | ZoomOut => {| selectedId := selectedId st;
                  zoom := JS.Math_max (zoom st - 5)%float 10%float |}
  end.

(** [selectedId === land.id]. *)
Definition isSelected (st : State) (i : Z) : bool :=
  match selectedId st with
  | Some s => s =? i
  | None => false
  end.

(** [lands.map(land => <LandPolygon ... />)]: the elements that get
    mounted, each under its React key [land.id]. *)
Definition render (ls : list Land) (st : State) : JS.completion (list (Z * Element)) :=
  fold_right
    (fun land acc =>
       match LandPolygon (shape land) (color land) (name land) (isSelected st (id land)), acc with
       | JS.Normal None, JS.Normal out => JS.Normal out
       | JS.Normal (Some el), JS.Normal out => JS.Normal ((id land, el) :: out)
       | _, _ => JS.TypeError
       end)
    (JS.Normal []) ls.

(** The bounds given to [delaunay.voronoi]:
    [[-MAP_SIZE/2, -MAP_SIZE/2, MAP_SIZE/2, MAP_SIZE/2]]. *)
Definition bounds : list float :=
  [ (- MAP_SIZE / 2)%float; (- MAP_SIZE / 2)%float;
    (MAP_SIZE / 2)%float; (MAP_SIZE / 2)%float ].

(** The states the page can be in. *)
Inductive reachable : State -> Prop :=
| reach_init : reachable init
| reach_step st e : reachable st -> reachable (step st e).

End MapClone.

(* ===================================================================== *)
(** * Page 3: the city, [VirtualCity] *)
(* ===================================================================== *)

Module City.

Definition GRID_SIZE : Z := 12.
Definition PLOT_SIZE : float := 1.0%float.
Definition GAP : float := 0.15%float.

(** The strings ['empty'], ['residential'], ['commercial']. *)
Inductive PlotType := empty | residential | commercial.

Record Plot := {
  id : string;
  position : list float;
  type : PlotType;
  height : float }.

(** The body of the inner loop up to [plots.push]: one draw decides the
    type, a second draw (taken only for a building) its height. *)
Definition cell (rng : nat -> float) (k : nat) : (PlotType * float) * nat :=
  let '(rand, k1) := JS.Math_random rng k in
  if JS.gt rand 0.85 then
    let '(r, k2) := JS.Math_random rng k1 in
    ((commercial, (r * 2 + 1.5)%float), k2)
  else if JS.gt rand 0.6 then
    let '(r, k2) := JS.Math_random rng k1 in
    ((residential, (r * 0.8 + 0.5)%float), k2)
  else ((empty, 0%float), k1).

(** The [useMemo] of [cityData]; the state is the list built so far and
    the number of draws consumed. *)
Definition generate (N : Z) (size gap : float) (rng : nat -> float)
    : list Plot * nat :=
  JS.for_loop N (fun x st =>
    JS.for_loop N (fun z st =>
      let '((ty, h), k') := cell rng (snd st) in
      (fst st ++ [ {| id := plot_id x z;
                      position := plot_position N size gap x z;
                      type := ty;
                      height := h |} ],
       k'))
    0 st)
  0 ([], 0%nat).

Definition cityData (rng : nat -> float) : list Plot :=
  fst (generate GRID_SIZE PLOT_SIZE GAP rng).

Record Colors := { baseColor : string; glowColor : string }.

(** "Determine Colors based on Type", then "Hover Effect Override". *)
Definition LandPlot_colors (ty : PlotType) (isSelected hovered : bool) : Colors :=
  let c :=
    match ty with
    | residential => {| baseColor := "#001a33"; glowColor := "#00aaff" |}
    | commercial => {| baseColor := "#1a0033"; glowColor := "#bd00ff" |}
    | empty =>
      if isSelected
      then {| baseColor := "#330000"; glowColor := "#ff0000" |}
      else {| baseColor := "#050505"; glowColor := "#000" |}
    end in
  if hovered then {| baseColor := baseColor c; glowColor := "#ffffff" |} else c.

(** The [Building] component: a group at [[0, height / 2, 0]] holding the
    tower, a box of the given height, and the top line at
    [[0, height / 2 + 0.05, 0]] inside the group. *)
Record Building := {
  group_y : float;
  tower_height : float;
  tower_color : string;
  top_y : float }.

Definition Building_component (height : float) (color : string) : Building :=
  {| group_y := (height / 2)%float;
     tower_height := height;
     tower_color := color;
     top_y := (height / 2 + 0.05)%float |}.

(** What the mesh of a city [LandPlot] holds besides the base plot: the
    colour of the edge lines, [type === 'empty' ? "#333" : glowColor], and
    the building, [type !== 'empty' && <Building .../>]. *)
Definition LandPlot_edges (ty : PlotType) (isSelected hovered : bool) : string :=
  match ty with
  | empty => "#333"
  | _ => glowColor (LandPlot_colors ty isSelected hovered)
  end.

Definition LandPlot_building (ty : PlotType) (height : float)
    (isSelected hovered : bool) : option Building :=
  match ty with
  | empty => None
  | _ => Some (Building_component height
                 (glowColor (LandPlot_colors ty isSelected hovered)))
  end.

End City.

(* ===================================================================== *)
(** * Page 4: the natural map, [NaturalLandMap] *)
(* ===================================================================== *)

Module Natural.

Definition GRID_SIZE : Z := 15.
Definition PLOT_SIZE : float := 1.0%float.
Definition GAP : float := 0.05%float.

(** The strings ['grass'], ['dirt'], ['water']. *)
Inductive PlotType := grass | dirt | water.

Record Plot := {
  id : string;
  position : list float;
  type : PlotType }.

(** The type of the cell [(x, z)]; [Math.random()] is called only when
    the first test fails. *)
Definition cell (x z : Z) (rng : nat -> float) (k : nat) : PlotType * nat :=
  if (x <? 3) || (z >? 12) then (water, k)
  else
    let '(r, k') := JS.Math_random rng k in
    if JS.gt r 0.9 then (dirt, k') else (grass, k').

(** The [useMemo] of [landData]. *)
Definition generate (N : Z) (size gap : float) (rng : nat -> float)
    : list Plot * nat :=
  JS.for_loop N (fun x st =>
    JS.for_loop N (fun z st =>
      let '(ty, k') := cell x z rng (snd st) in
      (fst st ++ [ {| id := plot_id x z;
                      position := plot_position N size gap x z;
                      type := ty |} ],
       k'))
    0 st)
  0 ([], 0%nat).

Definition landData (rng : nat -> float) : list Plot :=
  fst (generate GRID_SIZE PLOT_SIZE GAP rng).

(** The [colors] object indexed by type, and its [selected] entry. *)
Definition colors (ty : PlotType) : string :=
  match ty with
  | grass => "#4d7c0f"
  | dirt => "#78350f"
  | water => "#0ea5e9"
  end.
Definition colors_selected : string := "#facc15".

(** [currentColor]. *)
Definition LandPlot_color (ty : PlotType) (isSelected hovered : bool) : string :=
  if isSelected then colors_selected
  else if hovered then "#65a30d" else colors ty.

End Natural.

(* ===================================================================== *)
(** * The interaction state of the three grid pages *)
(* ===================================================================== *)

(** [VirtualLandMap], [VirtualCity] and [NaturalLandMap] keep the same
    state: one [useState(null)] cell [selectedPlot] in the scene, and one
    [useState(false)] cell [hovered] inside every mounted [LandPlot],
    which React keys by [plot.id]. *)
Module GridScene.

Record State := {
  selectedPlot : option string;
  hovered : string -> bool }.

Definition init : State :=
  {| selectedPlot := None; hovered := fun _ => false |}.

(** The three handlers of a [LandPlot] mesh. *)
Inductive Event :=
| Click (id : string)          (* onClick: e.stopPropagation(); onClick(id) *)
| PointerOver (id : string)    (* onPointerOver: setHover(true) *)
| PointerOut (id : string).    (* onPointerOut: setHover(false) *)

Definition setHover (st : State) (i : string) (b : bool) : State :=
  {| selectedPlot := selectedPlot st;
     hovered := fun j => if String.eqb j i then b else hovered st j |}.

Definition step (st : State) (e : Event) : State :=
  match e with
  | Click i => {| selectedPlot := Some i; hovered := hovered st |}
  | PointerOver i => setHover st i true
  | PointerOut i => setHover st i false
  end.

(** [isSelected={selectedPlot === plot.id}]. *)
Definition isSelected (st : State) (i : string) : bool :=
  match selectedPlot st with
  | Some s => String.eqb s i
  | None => false
  end.

(** The states the page can be in: [init] after mounting, then one
    handler at a time. *)
Inductive reachable : State -> Prop :=
| reach_init : reachable init
| reach_step st e : reachable st -> reachable (step st e).

(** The state after a sequence of events. *)
Definition run (st : State) (evs : list Event) : State :=
  fold_left step evs st.

End GridScene.

(* ===================================================================== *)
(** * Binary64 rounding on integers *)
(* ===================================================================== *)

(** Every finite double is an integer multiple of 2^-1074, and the exact
    product of two doubles one of 2^-2148.  At scale [k] the integer [v]
    stands for the real number [v * 2^-k]; the rounding of [SpecFloat]
    then becomes a function on [Z]. *)
Module B64.

(** The quotient [a / d] rounded to the nearest integer, ties to even. *)
Definition rne (a d : Z) : Z :=
  let q := a / d in
  match 2 * (a mod d) ?= d with
  | Lt => q
  | Gt => q + 1
  | Eq => if Z.even q then q else q + 1
  end.

(** The exponent of the last place of [v] at scale [k]: 53 significant
    bits, and nothing finer than 2^-1074. *)
Definition cexp (k v : Z) : Z := Z.max (Z.log2 v - 52) (k - 1074).

(** Rounding of a non-negative [v] to the nearest double, ties to even. *)
Definition round (k v : Z) : Z :=
  rne v (2 ^ cexp k v) * 2 ^ cexp k v.

(** The value of a non-negative double at scale [k]. *)
Definition val (k : Z) (x : spec_float) : Z :=
  match x with
  | S754_finite false m e => Zpos m * 2 ^ (e + k)
  | _ => 0
  end.

(** Zero or a positive finite double. *)
Definition nonneg (x : spec_float) : bool :=
  match x with
  | S754_zero _ => true
  | S754_finite false _ _ => true
  | _ => false
  end.

End B64.

Import B64.

(** What [n] applications of [shr_1] to [(m0, false, false)] hold. *)
Definition shr_inv (m0 n : Z) (mrs : shr_record) : Prop :=
  shr_m mrs = m0 / 2 ^ n /\
  shr_r mrs = (2 ^ n <=? 2 * (m0 mod 2 ^ n)) /\
  shr_s mrs = negb (m0 mod 2 ^ n =? 0) && negb (2 * (m0 mod 2 ^ n) =? 2 ^ n).

(** The value of a double in units of 2^-1074, and the test that it is
    zero or positive and finite. *)
Definition fv (x : float) : Z := val 1074 (Prim2SF x).
Definition fnn (x : float) : bool := nonneg (Prim2SF x).

(** The largest magnitude the monotonicity lemma is stated for. *)
Definition big : float := 0x1p400%float.

(** The largest double below 1. *)
Definition pred_one : float := 0x1.fffffffffffffp-1%float.

(** The double before it. *)
Definition pred_pred_one : float := 0x1.ffffffffffffep-1%float.

(* ===================================================================== *)
(** * Vocabulary of the statements *)
(* ===================================================================== *)

(** The integers [0, 1, ..., n - 1]; empty when [n <= 0]. *)
Definition zrange (n : Z) : list Z := map Z.of_nat (seq 0 (Z.to_nat n)).

(** The ids of an [N] x [N] grid, in generation order. *)
Definition grid_ids (N : Z) : list string :=
  flat_map (fun x => map (plot_id x) (zrange N)) (zrange N).

(** A string without the character [-]. *)
Fixpoint no_dash (s : string) : bool :=
  match s with
  | EmptyString => true
  | String c s' => negb (Ascii.eqb c "-") && no_dash s'
  end.

(** The draws of [Math.random()] lie in [0, 1). *)
Definition unit_draws (rng : nat -> float) : Prop :=
  forall k, PrimFloat.leb 0 (rng k) = true /\ PrimFloat.ltb (rng k) 1 = true.

(** The two nested loops the three grid pages share, for a body [body x z]
    that updates the generator's state. *)
Definition nested {S : Type} (N : Z) (body : Z -> Z -> S -> S) (s0 : S) : S :=
  JS.for_loop N (fun x s => JS.for_loop N (fun z s => body x z s) 0 s) 0 s0.

(** What "an [N] x [N] grid of pairwise distinct ids" says of a list of
    ids. *)
Definition is_grid (N : Z) (ids : list string) : Prop :=
  List.length ids = Z.to_nat (N * N) /\
  NoDup ids /\
  (forall i, In i ids <-> exists x z, 0 <= x < N /\ 0 <= z < N /\ i = plot_id x z).

(** Numeric comparison of two position arrays, as [===] compares their
    entries. *)
Fixpoint position_eqb (p q : list float) : bool :=
  match p, q with
  | [], [] => true
  | a :: p', b :: q' => PrimFloat.eqb a b && position_eqb p' q'
  | _, _ => false
  end.

Fixpoint records_eqb (l l' : list Basic.Plot) : bool :=
  match l, l' with
  | [], [] => true
  | a :: t, b :: t' =>
    String.eqb (Basic.id a) (Basic.id b)
    && position_eqb (Basic.position a) (Basic.position b)
    && records_eqb t t'
  | _, _ => false
  end.

(** The records the end-to-end scenario of the specification expects of
    the 2 x 2 basic grid. *)
Definition scenario_records : list Basic.Plot :=
  [ {| Basic.id := "0-0"; Basic.position := [(-0.55)%float; 0%float; (-0.55)%float] |};
    {| Basic.id := "0-1"; Basic.position := [(-0.55)%float; 0%float; 0.55%float] |};
    {| Basic.id := "1-0"; Basic.position := [0.55%float; 0%float; (-0.55)%float] |};
    {| Basic.id := "1-1"; Basic.position := [0.55%float; 0%float; 0.55%float] |} ].

(** The precedence the specification words: a renderer maps a category, a
    selection flag and a hover flag to what it displays; one selection
    colour is shown whenever the plot is selected, and one hover colour
    whenever it is hovered and not selected. *)
Definition selection_first {Cat C : Type} (render : Cat -> bool -> bool -> C) : Prop :=
  exists selected, forall cat hov, render cat true hov = selected.

Definition hover_second {Cat C : Type} (render : Cat -> bool -> bool -> C) : Prop :=
  exists hover, forall cat, render cat false true = hover.

(** The same precedence as a function of the two flags: the selection
    colour when selected, otherwise the hover colour when hovered,
    otherwise the base colour. *)
Definition precedence {C : Type} (selected hover base : C)
    (isSelected isHovered : bool) : C :=
  if isSelected then selected else if isHovered then hover else base.

(** A shape the renderer cannot draw: [null], or fewer than 3 points. *)
Definition broken (shape : option (list MapClone.point)) : Prop :=
  match shape with
  | None => True
  | Some pts => (List.length pts < 3)%nat
  end.

(** The display name as the specification words it: both word lists
    indexed by [id mod 10]. *)
Definition displayName_mod10 (id : Z) : string :=
  (JS.template (JS.index MapClone.names (Z.rem id 10))
   ++ " " ++ JS.template (JS.index MapClone.types (Z.rem id 10))
   ++ " " ++ JS.toString id)%string.

(** The range of the height of a city plot, by its type. *)
Definition height_in_range (ty : City.PlotType) (h : float) : Prop :=
  match ty with
  | City.empty => h = 0%float
  | City.residential => PrimFloat.leb 0.5 h = true /\ PrimFloat.ltb h 1.3 = true
  | City.commercial => PrimFloat.leb 1.5 h = true /\ PrimFloat.leb h 3.5 = true
  end.

(** The same with the commercial range half-open, as the specification
    words it. *)
Definition height_in_open_range (ty : City.PlotType) (h : float) : Prop :=
  match ty with
  | City.empty => h = 0%float
  | City.residential => PrimFloat.leb 0.5 h = true /\ PrimFloat.ltb h 1.3 = true
  | City.commercial => PrimFloat.leb 1.5 h = true /\ PrimFloat.ltb h 3.5 = true
  end.

(** The id of the last click of a sequence of events, [d] if there is
    none. *)
Fixpoint last_click (evs : list GridScene.Event) (d : option string) : option string :=
  match evs with
  | [] => d
  | GridScene.Click i :: evs' => last_click evs' (Some i)
  | _ :: evs' => last_click evs' d
  end.

(** Whether the last pointer event on the plot [i] in a sequence of events
    is a pointer-over, [d] if the sequence has no pointer event on [i]. *)
Fixpoint last_pointer (i : string) (evs : list GridScene.Event) (d : bool) : bool :=
  match evs with
  | [] => d
  | GridScene.PointerOver j :: evs' =>
    last_pointer i evs' (if String.eqb i j then true else d)
  | GridScene.PointerOut j :: evs' =>
    last_pointer i evs' (if String.eqb i j then false else d)
  | GridScene.Click _ :: evs' => last_pointer i evs' d
  end.

(** The zoom levels of the map-clone page. *)
Definition zoom_levels : list float :=
  [10; 15; 20; 25; 30; 35; 40; 45; 50]%float.

(** A record [LandPolygon] draws: a shape of at least 3 points. *)
Definition renderable (land : MapClone.Land) : bool :=
  match MapClone.shape land with
  | None => false
  | Some pts => 3 <=? Z.of_nat (List.length pts)
  end.

(** A string without a space. *)
Fixpoint no_space (s : string) : bool :=
  match s with
  | EmptyString => true
  | String c s' => negb (Ascii.eqb c " ") && no_space s'
  end.

(** What follows the last space of a string (the string itself if it has
    no space). *)
Fixpoint last_word (s : string) : string :=
  match s with
  | EmptyString => EmptyString
  | String c s' =>
    if no_space s' then (if Ascii.eqb c " " then s' else s) else last_word s'
  end.

(** A city plot that carries a building, and a natural plot that is not
    water. *)
Definition has_building (p : City.Plot) : bool :=
  match City.type p with City.empty => false | _ => true end.

Definition is_land (p : Natural.Plot) : bool :=
  match Natural.type p with Natural.water => false | _ => true end.

(** A coordinate inside the bounds given to the Voronoi diagram. *)
Definition in_bounds (v : float) : Prop :=
  PrimFloat.leb (- MapClone.MAP_SIZE / 2) v = true /\
  PrimFloat.ltb v (MapClone.MAP_SIZE / 2) = true.

(** The records of an [N] x [N] grid in generation order, [mk x z] being
    the record of the cell [(x, z)]. *)
Definition grid_of {A : Type} (N : Z) (mk : Z -> Z -> A) : list A :=
  flat_map (fun x => map (mk x) (zrange N)) (zrange N).

(* ===================================================================== *)
(** * Loops *)
(* ===================================================================== *)

Lemma for_loop_unfold {S : Type} (N : Z) (body : Z -> S -> S) (x : Z) (s : S) :
  JS.for_loop N body x s
  = if Z_lt_dec x N then JS.for_loop N body (x + 1) (body x s) else s.
Proof.
  rewrite JS.for_loop_equation_1. destruct (Z_lt_dec x N); reflexivity.
Qed.

(** A loop invariant: it holds at the exit, where the counter is [N] (or
    the start value, if the loop is never entered). *)
Lemma for_loop_inv {S : Type} (Inv : Z -> S -> Prop) (N : Z) (body : Z -> S -> S) :
  forall (x : Z) (s : S),
    Inv x s ->
    (forall i t, x <= i < N -> Inv i t -> Inv (i + 1) (body i t)) ->
    Inv (Z.max x N) (JS.for_loop N body x s).
Proof.
  intros x. remember (Z.to_nat (N - x)) as n eqn:En. revert x En.
  induction n as [|n IH]; intros x En s Hs Hstep; rewrite for_loop_unfold.
  - destruct (Z_lt_dec x N); [lia|]. now rewrite Z.max_l by lia.
  - destruct (Z_lt_dec x N); [|lia].
    replace (Z.max x N) with (Z.max (x + 1) N) by lia.
    apply IH; [lia| |].
    + apply Hstep; [lia|assumption].
    + intros i t Hi. apply Hstep. lia.
Qed.

Lemma for_loop_skip {S : Type} (N : Z) (body : Z -> S -> S) (x : Z) (s : S) :
  N <= x -> JS.for_loop N body x s = s.
Proof.
  intros H. rewrite for_loop_unfold. destruct (Z_lt_dec x N); [lia|reflexivity].
Qed.

Lemma zrange_succ (n : Z) : 0 <= n -> zrange (n + 1) = zrange n ++ [n].
Proof.
  intros H. unfold zrange.
  replace (Z.to_nat (n + 1)) with (Z.to_nat n + 1)%nat by lia.
  rewrite seq_app, map_app. cbn [seq map]. f_equal. f_equal. lia.
Qed.

Lemma zrange_max (n : Z) : zrange (Z.max 0 n) = zrange n.
Proof. unfold zrange. f_equal. f_equal. lia. Qed.

Lemma in_zrange (n i : Z) : In i (zrange n) <-> 0 <= i < n.
Proof.
  unfold zrange. rewrite in_map_iff. split.
  - intros (k & <- & Hk). apply in_seq in Hk. lia.
  - intros H. exists (Z.to_nat i). split; [lia|]. apply in_seq. lia.
Qed.

Lemma length_zrange (n : Z) : List.length (zrange n) = Z.to_nat n.
Proof. unfold zrange. now rewrite length_map, length_seq. Qed.

Lemma NoDup_zrange (n : Z) : NoDup (zrange n).
Proof.
  unfold zrange. apply Injective_map_NoDup; [|apply seq_NoDup].
  intros a b. lia.
Qed.

(* ===================================================================== *)
(** * Ids *)
(* ===================================================================== *)

Lemma no_dash_uint (d : uint) : no_dash (NilEmpty.string_of_uint d) = true.
Proof. induction d; cbn; auto. Qed.

(** The decimal digits of a non-negative integer. *)
Lemma toString_nonneg (x : Z) : 0 <= x ->
  exists d, Z.to_int x = Pos d /\ JS.toString x = NilEmpty.string_of_uint d.
Proof.
  intros H. unfold JS.toString. destruct x as [|p|p]; try lia.
  - exists (D0 Nil). split; reflexivity.
  - exists (Pos.to_uint p). split; [reflexivity|].
    cbn. unfold NilZero.string_of_uint.
    destruct (Pos.to_uint p) eqn:E; try reflexivity.
    exfalso. revert E. apply DecimalPos.Unsigned.to_uint_nonnil.
Qed.

Lemma no_dash_toString (x : Z) : 0 <= x -> no_dash (JS.toString x) = true.
Proof.
  intros H. destruct (toString_nonneg x H) as (d & _ & ->). apply no_dash_uint.
Qed.

Lemma toString_inj (x y : Z) : 0 <= x -> 0 <= y ->
  JS.toString x = JS.toString y -> x = y.
Proof.
  intros Hx Hy E.
  destruct (toString_nonneg x Hx) as (d & Dx & Sx).
  destruct (toString_nonneg y Hy) as (d' & Dy & Sy).
  rewrite Sx, Sy in E.
  assert (Some d = Some d') as [= ->] by (rewrite <- !NilEmpty.usu; now f_equal).
  apply DecimalZ.to_int_inj. congruence.
Qed.

(** Two strings without [-], each followed by [-], can be told apart. *)
Lemma append_dash_inj (s1 s2 t1 t2 : string) :
  no_dash s1 = true -> no_dash s2 = true ->
  (s1 ++ "-" ++ t1 = s2 ++ "-" ++ t2)%string -> s1 = s2 /\ t1 = t2.
Proof.
  revert s2. induction s1 as [|c s1 IH]; intros [|c' s2] H1 H2 E; cbn in *.
  - now injection E.
  - injection E as E1 E2. subst c'. discriminate.
  - injection E as E1 E2. subst c. discriminate.
  - injection E as E1 E2. subst c'.
    apply andb_true_iff in H1 as [_ H1]. apply andb_true_iff in H2 as [_ H2].
    destruct (IH s2 H1 H2 E2) as [-> ->]. auto.
Qed.

Lemma plot_id_inj (x z x' z' : Z) :
  0 <= x -> 0 <= z -> 0 <= x' -> 0 <= z' ->
  plot_id x z = plot_id x' z' -> x = x' /\ z = z'.
Proof.
  intros Hx Hz Hx' Hz' E. unfold plot_id in E.
  apply append_dash_inj in E as [E1 E2]; auto using no_dash_toString.
  split; now apply toString_inj.
Qed.

Lemma in_grid_ids (N : Z) (i : string) :
  In i (grid_ids N) <-> exists x z, 0 <= x < N /\ 0 <= z < N /\ i = plot_id x z.
Proof.
  unfold grid_ids. rewrite in_flat_map. split.
  - intros (x & Hx & Hi). apply in_map_iff in Hi as (z & <- & Hz).
    apply in_zrange in Hx, Hz. eauto.
  - intros (x & z & Hx & Hz & ->). exists x. split; [now apply in_zrange|].
    apply in_map. now apply in_zrange.
Qed.

Lemma length_grid_ids (N : Z) :
  List.length (grid_ids N) = (Z.to_nat N * Z.to_nat N)%nat.
Proof.
  unfold grid_ids. rewrite <- (length_zrange N) at 1.
  generalize (zrange N) at 2 3. intros l.
  induction l as [|x l IH]; cbn [flat_map List.length]; [reflexivity|].
  rewrite length_app, length_map, length_zrange, IH. reflexivity.
Qed.

Lemma NoDup_grid_ids (N : Z) : NoDup (grid_ids N).
Proof.
  unfold grid_ids.
  assert (H : forall l, NoDup l -> (forall x, In x l -> 0 <= x) ->
            NoDup (flat_map (fun x => map (plot_id x) (zrange N)) l)).
  { induction l as [|x l IH]; intros ND Hpos; cbn [flat_map]; [constructor|].
    inversion ND as [|? ? Hx ND']; subst.
    assert (Px : 0 <= x) by (apply Hpos; now left).
    apply NoDup_app.
    - apply Injective_map_NoDup_in; [|apply NoDup_zrange].
      intros a b Ha Hb E. apply in_zrange in Ha, Hb.
      now destruct (plot_id_inj x a x b) as [_ ?]; try lia.
    - apply IH; [assumption|]. intros y Hy. apply Hpos. now right.
    - intros i Hi Hi'. apply in_map_iff in Hi as (z & <- & Hz).
      apply in_flat_map in Hi' as (x' & Hx' & Hi').
      apply in_map_iff in Hi' as (z' & E & Hz').
      apply in_zrange in Hz, Hz'.
      assert (Px' : 0 <= x') by (apply Hpos; now right).
      destruct (plot_id_inj x' z' x z) as [-> _]; try lia; auto. }
  apply H; [apply NoDup_zrange|]. intros x Hx. apply in_zrange in Hx. lia.
Qed.

(* ===================================================================== *)
(** * The nested loops of the grid pages *)
(* ===================================================================== *)

(** The three grid pages run the same two loops; their bodies differ in
    the record they push and in the state they thread.  [proj] reads the
    list of records out of the state. *)
Section NestedLoops.

Context {S A : Type} (proj : S -> list A) (N : Z) (body : Z -> Z -> S -> S).

(** The body pushes exactly one record. *)
Hypothesis body_push : forall x z s, exists a, proj (body x z s) = proj s ++ [a].

Lemma nested_ids (idf : A -> string) (s0 : S) :
  proj s0 = [] ->
  (forall x z s a, proj (body x z s) = proj s ++ [a] -> idf a = plot_id x z) ->
  map idf (proj (nested N body s0)) = grid_ids N.
Proof.
  intros H0 Hid. unfold nested, grid_ids.
  set (row := fun x => map (plot_id x) (zrange N)).
  rewrite <- (zrange_max N).
  apply (for_loop_inv (fun x s => map idf (proj s) = flat_map row (zrange x))).
  - now rewrite H0.
  - intros x s Hx Hs. rewrite zrange_succ, flat_map_app by lia.
    cbn [flat_map]. rewrite app_nil_r, <- Hs. unfold row.
    rewrite <- (zrange_max N).
    apply (for_loop_inv
             (fun z t => map idf (proj t) = map idf (proj s) ++ map (plot_id x) (zrange z))).
    + cbn. now rewrite app_nil_r.
    + intros z t Hz Ht. destruct (body_push x z t) as (a & Ea).
      rewrite Ea, map_app, Ht, zrange_succ, map_app, app_assoc by lia.
      cbn [map]. now rewrite (Hid x z t a Ea).
Qed.

Lemma nested_Forall (P : A -> Prop) (s0 : S) :
  Forall P (proj s0) ->
  (forall x z s a, 0 <= x < N -> 0 <= z < N ->
     proj (body x z s) = proj s ++ [a] -> P a) ->
  Forall P (proj (nested N body s0)).
Proof.
  intros H0 HP. unfold nested.
  apply (for_loop_inv (fun _ s => Forall P (proj s))); [assumption|].
  intros x s Hx Hs.
  apply (for_loop_inv (fun _ t => Forall P (proj t))); [assumption|].
  intros z t Hz Ht. destruct (body_push x z t) as (a & Ea).
  rewrite Ea. apply Forall_app. split; [assumption|].
  constructor; [|constructor]. now apply (HP x z t a).
Qed.

End NestedLoops.

(* ===================================================================== *)
(** * Binary64 rounding: the theory *)
(* ===================================================================== *)

(** The heights of the city plots are [r * a + b] for a draw [r] in
    [0, 1), computed in doubles.  The bounds the page relies on follow
    from two facts: rounding to nearest is monotone, and the doubles below
    1 stop at [1 - 2^-53].  Both are proved here from the Standard
    Library's specification of the primitive operations ([SpecFloat]
    through [FloatAxioms]): first the rounding of [binary_round_aux] is
    identified with [B64.round] on scaled integers, then monotonicity is
    proved there and carried back to [PrimFloat.mul] and [PrimFloat.add]
    on non-negative doubles. *)

(** ** Rounding to nearest, ties to even *)

(** [rne a d] is within half of [a / d]. *)
Lemma rne_bounds a d : 0 < d ->
  2 * rne a d * d - d <= 2 * a <= 2 * rne a d * d + d.
Proof.
  intros Hd. unfold rne.
  pose proof (Z.div_mod a d ltac:(lia)) as E.
  pose proof (Z.mod_pos_bound a d Hd) as B.
  destruct (Z.compare_spec (2 * (a mod d)) d) as [C|C|C];
    [destruct (Z.even (a / d))| |]; nia.
Qed.

Lemma rne_exact q d : 0 < d -> rne (q * d) d = q.
Proof.
  intros Hd. unfold rne.
  rewrite Z.div_mul, Z.mod_mul by lia.
  destruct (Z.compare_spec (2 * 0) d); lia.
Qed.

Lemma rne_floor a d : a / d <= rne a d <= a / d + 1.
Proof.
  unfold rne. destruct (2 * (a mod d) ?= d); [destruct (Z.even (a / d))| |]; lia.
Qed.

Lemma rne_mono a b d : 0 < d -> a <= b -> rne a d <= rne b d.
Proof.
  intros Hd Hab.
  destruct (Z.eq_dec (a / d) (b / d)) as [E|E].
  - unfold rne. rewrite <- E.
    assert (a mod d <= b mod d).
    { pose proof (Z.div_mod a d ltac:(lia)). pose proof (Z.div_mod b d ltac:(lia)).
      rewrite <- E in *. nia. }
    destruct (Z.compare_spec (2 * (a mod d)) d), (Z.compare_spec (2 * (b mod d)) d),
      (Z.even (a / d)); lia.
  - pose proof (Z.div_le_mono a b d Hd Hab).
    pose proof (rne_floor a d). pose proof (rne_floor b d). lia.
Qed.

Lemma rne_le_int a q d : 0 < d -> a <= q * d -> rne a d <= q.
Proof.
  intros Hd H. rewrite <- (rne_exact q d Hd). now apply rne_mono.
Qed.

Lemma rne_ge_int a q d : 0 < d -> q * d <= a -> q <= rne a d.
Proof.
  intros Hd H. rewrite <- (rne_exact q d Hd). now apply rne_mono.
Qed.

Lemma rne_scale a d t : 0 < d -> 0 < t -> rne (a * t) (d * t) = rne a d.
Proof.
  intros Hd Ht. unfold rne.
  rewrite Z.div_mul_cancel_r by lia.
  rewrite Z.mul_mod_distr_r by lia.
  destruct (Z.compare_spec (2 * (a mod d * t)) (d * t)),
    (Z.compare_spec (2 * (a mod d)) d); try reflexivity; nia.
Qed.

(** ** Monotonicity of rounding *)

Lemma cexp_mono k v w : v <= w -> cexp k v <= cexp k w.
Proof.
  intros H. unfold cexp. pose proof (Z.log2_le_mono v w H). lia.
Qed.

Lemma cexp_nonneg k v : 1074 <= k -> 0 <= cexp k v.
Proof. unfold cexp. lia. Qed.

Lemma round_0 k : round k 0 = 0.
Proof.
  unfold round, rne. rewrite Zdiv_0_l, Zmod_0_l.
  pose proof (Z.pow_nonneg 2 (cexp k 0) ltac:(lia)).
  destruct (Z.compare_spec (2 * 0) (2 ^ cexp k 0)); simpl; lia.
Qed.

Lemma round_mono k v w : 1074 <= k -> 0 <= v <= w -> round k v <= round k w.
Proof.
  intros Hk [Hv Hvw].
  pose proof (cexp_mono k v w Hvw) as Hc.
  pose proof (cexp_nonneg k v Hk) as Hc0.
  unfold round.
  destruct (Z.eq_dec (cexp k v) (cexp k w)) as [E|E].
  - rewrite E. apply Z.mul_le_mono_nonneg_r; [apply Z.pow_nonneg; lia|].
    apply rne_mono; [apply Z.pow_pos_nonneg; lia|lia].
  - assert (Hlt : cexp k v < cexp k w) by lia.
    assert (Hw : cexp k w = Z.log2 w - 52) by (unfold cexp in *; lia).
    assert (0 < w).
    { destruct (Z.eq_dec w 0) as [->|]; [|lia]. assert (v = 0) by lia; subst. lia. }
    assert (Pw : 0 < 2 ^ cexp k w) by (apply Z.pow_pos_nonneg; lia).
    assert (Pv : 0 < 2 ^ cexp k v) by (apply Z.pow_pos_nonneg; lia).
    (* w rounds to at least 2^52 units *)
    assert (Lw : 2 ^ 52 <= rne w (2 ^ cexp k w)).
    { apply rne_ge_int; [lia|]. rewrite <- Z.pow_add_r by lia.
      replace (52 + cexp k w) with (Z.log2 w) by lia.
      apply Z.log2_spec; lia. }
    (* v rounds to at most 2^53 units *)
    assert (Lv : rne v (2 ^ cexp k v) <= 2 ^ 53).
    { apply rne_le_int; [lia|]. rewrite <- Z.pow_add_r by lia.
      destruct (Z.eq_dec v 0) as [->|]; [apply Z.pow_nonneg; lia|].
      pose proof (Z.log2_spec v ltac:(lia)) as [_ U].
      apply Z.lt_le_incl. eapply Z.lt_le_trans; [exact U|].
      apply Z.pow_le_mono_r; [lia|]. unfold cexp. lia. }
    apply Z.le_trans with (2 ^ 53 * 2 ^ cexp k v).
    { apply Z.mul_le_mono_nonneg_r; lia. }
    apply Z.le_trans with (2 ^ 52 * 2 ^ cexp k w).
    2:{ apply Z.mul_le_mono_nonneg_r; lia. }
    rewrite <- !Z.pow_add_r by lia.
    apply Z.pow_le_mono_r; lia.
Qed.

(** ** The shifts of [SpecFloat] *)

Lemma digits2_pos_log2 m : Zpos (digits2_pos m) = Z.log2 (Zpos m) + 1.
Proof.
  assert (E : digits2_pos m = Pos.size m) by (induction m; simpl; congruence).
  rewrite E. destruct m; simpl; lia.
Qed.

Lemma Zdigits2_log2 m : 0 < m -> Zdigits2 m = Z.log2 m + 1.
Proof. destruct m; try lia. intros _. apply digits2_pos_log2. Qed.

Lemma iter_pos_inv {A} (f : A -> A) (Inv : Z -> A -> Prop) :
  (forall n x, 0 <= n -> Inv n x -> Inv (n + 1) (f x)) ->
  forall p n x, 0 <= n -> Inv n x -> Inv (n + Zpos p) (iter_pos f p x).
Proof.
  intros Hstep. induction p as [p IH|p IH|]; intros n x Hn Hx; simpl.
  - replace (n + Z.pos p~1) with (((n + 1) + Zpos p) + Zpos p) by lia.
    apply IH; [lia|]. apply IH; [lia|]. now apply Hstep.
  - replace (n + Z.pos p~0) with ((n + Zpos p) + Zpos p) by lia.
    apply IH; [lia|]. now apply IH.
  - now apply Hstep.
Qed.

Lemma shr_inv_0 m0 : shr_inv m0 0 (Build_shr_record m0 false false).
Proof.
  unfold shr_inv. simpl. rewrite Z.div_1_r, Z.mod_1_r. auto.
Qed.

Lemma shr_inv_step m0 n mrs : 0 <= m0 -> 0 <= n ->
  shr_inv m0 n mrs -> shr_inv m0 (n + 1) (shr_1 mrs).
Proof.
  intros Hm Hn (Eq & Er & Es).
  assert (P : 0 < 2 ^ n) by (apply Z.pow_pos_nonneg; lia).
  unfold shr_inv. rewrite (Z.pow_add_r 2 n 1) by lia. change (2 ^ 1) with 2.
  pose proof (Z.div_mod m0 (2 ^ n) ltac:(lia)) as D.
  pose proof (Z.mod_pos_bound m0 (2 ^ n) P) as B.
  assert (Q : 0 <= m0 / 2 ^ n) by (apply Z.div_pos; lia).
  set (q := m0 / 2 ^ n) in *. set (r := m0 mod 2 ^ n) in *.
  assert (exists q' b, q = 2 * q' + b /\ (b = 0 \/ b = 1) /\ 0 <= q' /\
            shr_m (shr_1 mrs) = q' /\ shr_r (shr_1 mrs) = (b =? 1) /\
            shr_s (shr_1 mrs) = shr_r mrs || shr_s mrs) as (q' & b & Eq' & Hb & Hq' & Em & Er' & Es').
  { destruct mrs as [m rb sb]. simpl in Eq. subst m.
    destruct q as [|[p|p|]|p] eqn:Eqq; try lia; simpl.
    - exists 0, 0. repeat split; auto; lia.
    - exists (Zpos p), 1. repeat split; auto; lia.
    - exists (Zpos p), 0. repeat split; auto; lia.
    - exists 0, 1. repeat split; auto; lia. }
  assert (Ediv : m0 / (2 ^ n * 2) = q').
  { symmetry. apply (Z.div_unique m0 (2 ^ n * 2) q' (b * 2 ^ n + r)); nia. }
  assert (Emod : m0 mod (2 ^ n * 2) = b * 2 ^ n + r).
  { symmetry. apply (Z.mod_unique m0 (2 ^ n * 2) q' (b * 2 ^ n + r)); nia. }
  rewrite Ediv, Emod, Em, Er', Es', Er, Es.
  split; [reflexivity|].
  assert (Hr' : (b =? 1) = (2 ^ n * 2 <=? 2 * (b * 2 ^ n + r))).
  { destruct Hb; subst b; symmetry; [apply Z.leb_gt|apply Z.leb_le]; lia. }
  split; [exact Hr'|].
  destruct (Z.leb_spec (2 ^ n) (2 * r)), (Z.eqb_spec r 0), (Z.eqb_spec (2 * r) (2 ^ n)),
    (Z.eqb_spec (b * 2 ^ n + r) 0), (Z.eqb_spec (2 * (b * 2 ^ n + r)) (2 ^ n * 2));
    try reflexivity; exfalso; destruct Hb; subst b; lia.
Qed.

Lemma shr_inv_iter m0 p : 0 <= m0 ->
  shr_inv m0 (Zpos p) (iter_pos shr_1 p (Build_shr_record m0 false false)).
Proof.
  intros Hm.
  apply (iter_pos_inv shr_1 (shr_inv m0)) with (n := 0) (p := p); [|lia|apply shr_inv_0].
  intros n x Hn. now apply shr_inv_step.
Qed.

Lemma shr_inv_rne m0 n mrs : 0 <= n -> shr_inv m0 n mrs ->
  round_nearest_even (shr_m mrs) (loc_of_shr_record mrs) = rne m0 (2 ^ n).
Proof.
  intros Hn (Eq & Er & Es).
  assert (P : 0 < 2 ^ n) by (apply Z.pow_pos_nonneg; lia).
  pose proof (Z.mod_pos_bound m0 (2 ^ n) P) as B.
  destruct mrs as [m rb sb]. cbn [shr_m shr_r shr_s] in *. subst m rb sb.
  unfold rne, loc_of_shr_record, round_nearest_even.
  destruct (Z.leb_spec (2 ^ n) (2 * (m0 mod 2 ^ n))),
    (Z.eqb_spec (m0 mod 2 ^ n) 0), (Z.eqb_spec (2 * (m0 mod 2 ^ n)) (2 ^ n)),
    (Z.compare_spec (2 * (m0 mod 2 ^ n)) (2 ^ n)); cbn [negb andb];
    try reflexivity; lia.
Qed.

Lemma fexp_eq x : fexp prec emax x = Z.max (x - 53) (-1074).
Proof. reflexivity. Qed.

Lemma shr_fexp_inv m e : 0 <= m ->
  exists mrs,
    shr_fexp prec emax m e loc_Exact
    = (mrs, e + Z.max 0 (fexp prec emax (Zdigits2 m + e) - e)) /\
    shr_inv m (Z.max 0 (fexp prec emax (Zdigits2 m + e) - e)) mrs.
Proof.
  intros Hm. unfold shr_fexp, shr. cbn [shr_record_of_loc].
  destruct (fexp prec emax (Zdigits2 m + e) - e) as [|p|p] eqn:E.
  - exists (Build_shr_record m false false). rewrite Z.add_0_r. split; [reflexivity|].
    apply shr_inv_0.
  - exists (iter_pos shr_1 p (Build_shr_record m false false)).
    rewrite Z.max_r by lia. split; [reflexivity|]. now apply shr_inv_iter.
  - exists (Build_shr_record m false false). rewrite Z.max_l by lia.
    rewrite Z.add_0_r. split; [reflexivity|]. apply shr_inv_0.
Qed.

Lemma rne_nonneg a d : 0 <= a -> 0 < d -> 0 <= rne a d.
Proof.
  intros Ha Hd. pose proof (rne_floor a d). pose proof (Z.div_pos a d Ha Hd). lia.
Qed.

Lemma log2_mul_pow2 m n : 0 < m -> 0 <= n -> Z.log2 (m * 2 ^ n) = Z.log2 m + n.
Proof. intros. rewrite Z.log2_mul_pow2 by lia. lia. Qed.

(** The value [binary_round_aux] computes: the rounding of its exact
    input, as long as the input is far from overflow. *)
Lemma binary_round_aux_val k m e :
  1074 <= k -> - k <= e -> Zpos m * 2 ^ (e + k) < 2 ^ (k + 900) ->
  nonneg (binary_round_aux prec emax false (Zpos m) e loc_Exact) = true /\
  val k (binary_round_aux prec emax false (Zpos m) e loc_Exact)
  = round k (Zpos m * 2 ^ (e + k)).
Proof.
  intros Hk He Hbig.
  set (V := Zpos m * 2 ^ (e + k)) in *.
  assert (HV : 0 < V) by (apply Z.mul_pos_pos; [lia|apply Z.pow_pos_nonneg; lia]).
  assert (LV : Z.log2 V = Z.log2 (Zpos m) + (e + k)) by (apply log2_mul_pow2; lia).
  assert (LV' : Z.log2 V < k + 900) by (apply Z.log2_lt_pow2; lia).
  pose proof (Z.log2_nonneg (Zpos m)) as Lm.
  set (d := Z.log2 (Zpos m) + 1).
  set (c := Z.max (d + e - 53) (-1074)).
  assert (Hc : cexp k V = k + c) by (unfold cexp, c, d; lia).
  unfold round. rewrite Hc.
  unfold binary_round_aux.
  destruct (shr_fexp_inv (Zpos m) e ltac:(lia)) as (mrs1 & E1 & I1).
  rewrite Zdigits2_log2, fexp_eq in E1, I1 by lia. fold d in E1, I1. fold c in E1, I1.
  rewrite E1.
  set (n1 := Z.max 0 (c - e)) in *.
  rewrite (shr_inv_rne (Zpos m) n1 mrs1 ltac:(lia) I1).
  set (m1 := rne (Zpos m) (2 ^ n1)).
  assert (P1 : 0 < 2 ^ n1) by (apply Z.pow_pos_nonneg; lia).
  assert (Hm1 : 0 <= m1) by (apply rne_nonneg; lia).
  (* the rounded quotient, in units of the last place *)
  assert (Hrne : rne V (2 ^ (k + c)) * 2 ^ (k + c) = m1 * 2 ^ (e + n1 + k)).
  { destruct (Z_le_gt_dec c e) as [Hce|Hce].
    - assert (n1 = 0) by lia.
      assert (Em1 : m1 = Zpos m).
      { unfold m1. replace n1 with 0 by lia. change (2 ^ 0) with 1.
        rewrite <- (Z.mul_1_r (Zpos m)) at 1. apply rne_exact; lia. }
      rewrite Em1. replace (e + n1 + k) with (e + k) by lia.
      replace V with (Zpos m * 2 ^ (e - c) * 2 ^ (k + c)).
      2:{ unfold V. rewrite <- Z.mul_assoc, <- Z.pow_add_r by lia. f_equal. f_equal. lia. }
      rewrite rne_exact by (apply Z.pow_pos_nonneg; lia).
      rewrite <- Z.mul_assoc, <- Z.pow_add_r by lia. f_equal. f_equal. lia.
    - assert (n1 = c - e) by lia.
      replace (e + n1 + k) with (k + c) by lia. f_equal.
      replace (2 ^ (k + c)) with (2 ^ n1 * 2 ^ (e + k)).
      2:{ rewrite <- Z.pow_add_r by lia. f_equal. lia. }
      unfold V, m1. apply rne_scale; [lia|apply Z.pow_pos_nonneg; lia]. }
  rewrite Hrne.
  (* the mantissa has at most 53 bits, or is 2^53 *)
  assert (B1 : m1 <= 2 ^ 53).
  { destruct (Z_le_gt_dec c e) as [Hce|Hce].
    - assert (n1 = 0) by lia.
      assert (Em1 : m1 = Zpos m).
      { unfold m1. replace n1 with 0 by lia. change (2 ^ 0) with 1.
        rewrite <- (Z.mul_1_r (Zpos m)) at 1. apply rne_exact; lia. }
      rewrite Em1. apply Z.lt_le_incl. apply Z.log2_lt_pow2; [lia|]. unfold c, d in *. lia.
    - apply rne_le_int; [lia|]. rewrite <- Z.pow_add_r by lia.
      apply Z.lt_le_incl. apply Z.log2_lt_pow2; [lia|]. unfold c, d in *. lia. }
  destruct (shr_fexp_inv m1 (e + n1) Hm1) as (mrs2 & E2 & I2).
  rewrite E2. clear E1 E2.
  set (n2 := Z.max 0 (fexp prec emax (Zdigits2 m1 + (e + n1)) - (e + n1))) in *.
  destruct I2 as (Em2 & _ & _). rewrite Em2.
  destruct (Z.eq_dec m1 0) as [Z1|NZ1].
  - rewrite Z1, Zdiv_0_l. cbn [nonneg val]. split; [reflexivity|lia].
  - assert (L1 : Z.log2 m1 <= 53).
    { destruct (Z.eq_dec m1 (2 ^ 53)) as [->|]; [reflexivity|].
      assert (Z.log2 m1 < 53) by (apply Z.log2_lt_pow2; lia). lia. }
    assert (En2 : n2 = Z.max 0 (Z.log2 m1 + 1 - 53)).
    { unfold n2. rewrite Zdigits2_log2, fexp_eq by lia. unfold n1, c. lia. }
    assert (Hdiv : m1 / 2 ^ n2 * 2 ^ n2 = m1 /\ 0 < m1 / 2 ^ n2).
    { destruct (Z.eq_dec (Z.log2 m1) 53) as [E53|N53].
      - assert (m1 = 2 ^ 53).
        { pose proof (Z.log2_spec m1 ltac:(lia)) as [Lo _]. rewrite E53 in Lo. lia. }
        replace n2 with 1 by lia. subst m1. rewrite H. split; reflexivity.
      - replace n2 with 0 by lia. change (2 ^ 0) with 1.
        rewrite Z.div_1_r. lia. }
    destruct Hdiv as [Hdiv Hpos].
    destruct (m1 / 2 ^ n2) as [|p|p] eqn:Ep; try lia.
    assert (Hle : (e + n1 + n2 <=? emax - prec) = true).
    { apply Z.leb_le. change (emax - prec) with 971. unfold n1, c, d in *. lia. }
    rewrite Hle. cbn [nonneg val]. split; [reflexivity|].
    rewrite <- Hdiv.
    rewrite <- Z.mul_assoc, <- Z.pow_add_r by (unfold n1 in *; lia).
    f_equal. f_equal. lia.
Qed.

(** ** Valid doubles and their order *)

Lemma valid_finite s m e : valid_binary (S754_finite s m e) = true ->
  -1074 <= e <= 971 /\ Zpos m < 2 ^ 53 /\ (-1074 < e -> 2 ^ 52 <= Zpos m).
Proof.
  unfold SpecFloat.valid_binary, bounded, canonical_mantissa.
  rewrite andb_true_iff, Z.eqb_eq, Z.leb_le, fexp_eq, digits2_pos_log2.
  change (emax - prec) with 971. intros [C B].
  pose proof (Z.log2_nonneg (Zpos m)).
  repeat split; try lia.
  - apply Z.log2_lt_pow2; lia.
  - intros He. assert (E : Z.log2 (Zpos m) = 52) by lia.
    pose proof (Z.log2_spec (Zpos m) ltac:(lia)) as [Lo _]. now rewrite E in Lo.
Qed.

Lemma val_pos k s m e : -k <= e -> nonneg (S754_finite s m e) = true ->
  0 < val k (S754_finite s m e).
Proof.
  intros He Hs. destruct s; [discriminate|]. cbn [val].
  apply Z.mul_pos_pos; [lia|apply Z.pow_pos_nonneg; lia].
Qed.

Lemma val_nonneg k x : 0 <= val k x.
Proof.
  destruct x as [| | |[] m e]; cbn [val]; lia.
Qed.

Lemma scaled_lt a b t u :
  a < 2 ^ 53 -> 2 ^ 52 <= b -> 0 < t -> 2 <= u -> a * t < b * (t * u).
Proof.
  intros Ha Hb Ht Hu.
  apply Z.lt_le_trans with (2 ^ 53 * t).
  - apply Z.mul_lt_mono_pos_r; assumption.
  - change (2 ^ 53) with (2 ^ 52 * 2). rewrite <- Z.mul_assoc, (Z.mul_comm 2 t).
    apply Z.mul_le_mono_nonneg; try lia.
    apply Z.mul_le_mono_nonneg_l; lia.
Qed.

Lemma SFcompare_val x y :
  nonneg x = true -> nonneg y = true ->
  valid_binary x = true -> valid_binary y = true ->
  SFcompare x y = Some (val 1074 x ?= val 1074 y).
Proof.
  intros Nx Ny Vx Vy.
  destruct x as [sx|sx| |sx mx ex], y as [sy|sy| |sy my ey]; try discriminate.
  - reflexivity.
  - apply valid_finite in Vy. pose proof (val_pos 1074 sy my ey ltac:(lia) Ny).
    destruct sy; [discriminate|]. cbn [SFcompare]. f_equal. symmetry.
    apply Z.compare_lt_iff. cbn [val] in *. lia.
  - apply valid_finite in Vx. pose proof (val_pos 1074 sx mx ex ltac:(lia) Nx).
    destruct sx; [discriminate|]. cbn [SFcompare]. f_equal. symmetry.
    apply Z.compare_gt_iff. cbn [val] in *. lia.
  - destruct sx, sy; try discriminate.
    apply valid_finite in Vx, Vy. cbn [SFcompare val]. f_equal.
    destruct Vx as (Ex & Mx & Nx'), Vy as (Ey & My & Ny').
    destruct (Z.compare_spec ex ey) as [E|L|G].
    + subst ey. rewrite Pos.compare_cont_spec.
      replace (Pos.switch_Eq Eq (mx ?= my)%positive) with (Zpos mx ?= Zpos my)
        by (cbn [Z.compare]; destruct (mx ?= my)%positive; reflexivity).
      apply Zmult_compare_compat_r. apply Z.lt_gt. apply Z.pow_pos_nonneg; lia.
    + symmetry. apply Z.compare_lt_iff.
      replace (ey + 1074) with ((ex + 1074) + (ey - ex)) by (clear; lia).
      rewrite (Z.pow_add_r 2 (ex + 1074) (ey - ex)) by (clear - Ex L; lia).
      apply (scaled_lt (Zpos mx) (Zpos my) (2 ^ (ex + 1074)) (2 ^ (ey - ex)));
        [lia|lia|apply Z.pow_pos_nonneg; lia|apply (Z.pow_le_mono_r 2 1); lia].
    + symmetry. apply Z.compare_gt_iff.
      replace (ex + 1074) with ((ey + 1074) + (ex - ey)) by (clear; lia).
      rewrite (Z.pow_add_r 2 (ey + 1074) (ex - ey)) by (clear - Ey G; lia).
      apply (scaled_lt (Zpos my) (Zpos mx) (2 ^ (ey + 1074)) (2 ^ (ex - ey)));
        [lia|lia|apply Z.pow_pos_nonneg; lia|apply (Z.pow_le_mono_r 2 1); lia].
Qed.

(** A valid double rounds to itself. *)
Lemma round_valid x : nonneg x = true -> valid_binary x = true ->
  round 1074 (val 1074 x) = val 1074 x.
Proof.
  intros Nx Vx. destruct x as [s|s| |s m e]; try discriminate.
  - apply round_0.
  - destruct s; [discriminate|]. pose proof Vx as Vx'. apply valid_finite in Vx as (E & M & N).
    cbn [val]. unfold round.
    assert (C : cexp 1074 (Zpos m * 2 ^ (e + 1074)) = e + 1074).
    { unfold cexp. rewrite log2_mul_pow2 by lia.
      assert (Z.log2 (Zpos m) < 53) by (apply Z.log2_lt_pow2; lia).
      destruct (Z.eq_dec e (-1074)) as [->|]; [lia|].
      specialize (N ltac:(lia)). pose proof (Z.log2_le_pow2 (Z.pos m) 52 ltac:(lia)). lia. }
    rewrite C. rewrite rne_exact by (apply Z.pow_pos_nonneg; lia). reflexivity.
Qed.

(** ** Product and sum of non-negative doubles *)

Lemma pos_iter_xO m d : Zpos (Pos.iter xO m d) = Zpos m * 2 ^ Zpos d.
Proof.
  induction d as [|d IH] using Pos.peano_ind.
  - cbn [Pos.iter]. rewrite Pos2Z.inj_xO. change (2 ^ 1) with 2. ring.
  - rewrite Pos.iter_succ, Pos2Z.inj_xO, IH, Pos2Z.inj_succ, Z.pow_succ_r by lia. ring.
Qed.

Lemma shl_align_val k m e e' : - k <= e -> - k <= e' ->
  Zpos (fst (shl_align m e e')) * 2 ^ (snd (shl_align m e e') + k) = Zpos m * 2 ^ (e + k)
  /\ - k <= snd (shl_align m e e').
Proof.
  intros He He'. unfold shl_align.
  destruct (e' - e) as [|d|d] eqn:E; cbn [fst snd]; try (split; [reflexivity|lia]).
  split; [|lia]. rewrite pos_iter_xO.
  replace (e + k) with (Zpos d + (e' + k)) by lia.
  rewrite (Z.pow_add_r 2 (Zpos d) (e' + k)) by lia. ring.
Qed.

Lemma binary_round_val k m e :
  1074 <= k -> - k <= e -> Zpos m * 2 ^ (e + k) < 2 ^ (k + 900) ->
  nonneg (binary_round prec emax false m e) = true /\
  val k (binary_round prec emax false m e) = round k (Zpos m * 2 ^ (e + k)).
Proof.
  intros Hk He Hbig. unfold binary_round.
  set (e' := fexp prec emax (Zpos (digits2_pos m) + e)).
  assert (He' : - k <= e') by (unfold e'; rewrite fexp_eq; lia).
  destruct (shl_align_val k m e e' He He') as [Ev Ee].
  destruct (shl_align m e e') as [mz ez]. cbn [fst snd] in Ev, Ee.
  rewrite <- Ev in Hbig |- *. now apply binary_round_aux_val.
Qed.

Lemma SFmul_val x y :
  nonneg x = true -> nonneg y = true ->
  valid_binary x = true -> valid_binary y = true ->
  val 1074 x * val 1074 y < 2 ^ (2148 + 900) ->
  nonneg (SF64mul x y) = true /\
  val 2148 (SF64mul x y) = round 2148 (val 1074 x * val 1074 y).
Proof.
  intros Nx Ny Vx Vy Hbig. unfold SF64mul.
  destruct x as [sx|sx| |sx mx ex], y as [sy|sy| |sy my ey]; try discriminate;
    try (destruct sx; try discriminate); try (destruct sy; try discriminate);
    cbn [SFmul xorb val nonneg]; rewrite ?Z.mul_0_l, ?Z.mul_0_r, ?round_0; auto.
  apply valid_finite in Vx, Vy.
  cbn [val] in Hbig.
  assert (E : Zpos (mx * my) * 2 ^ (ex + ey + 2148)
              = Zpos mx * 2 ^ (ex + 1074) * (Zpos my * 2 ^ (ey + 1074))).
  { replace (ex + ey + 2148) with ((ex + 1074) + (ey + 1074)) by lia.
    rewrite (Z.pow_add_r 2 (ex + 1074) (ey + 1074)), Pos2Z.inj_mul by lia. ring. }
  rewrite <- E in Hbig |- *. apply binary_round_aux_val; lia.
Qed.

Lemma SFadd_val x y :
  nonneg x = true -> nonneg y = true ->
  valid_binary x = true -> valid_binary y = true ->
  val 1074 x + val 1074 y < 2 ^ (1074 + 900) ->
  nonneg (SF64add x y) = true /\
  val 1074 (SF64add x y) = round 1074 (val 1074 x + val 1074 y).
Proof.
  intros Nx Ny Vx Vy Hbig. unfold SF64add.
  destruct x as [sx|sx| |sx mx ex] eqn:Ex, y as [sy|sy| |sy my ey] eqn:Ey;
    try discriminate.
  - cbn [val]. rewrite round_0. destruct sx, sy; auto.
  - rewrite <- Ey in *. replace (SFadd prec emax (S754_zero sx) y) with y by (subst y; reflexivity).
    cbn [val]. rewrite Z.add_0_l, round_valid by assumption. auto.
  - rewrite <- Ex in *. replace (SFadd prec emax x (S754_zero sy)) with x by (subst x; reflexivity).
    cbn [val]. rewrite Z.add_0_r, round_valid by assumption. auto.
  - destruct sx, sy; try discriminate.
    apply valid_finite in Vx, Vy. cbn [val] in Hbig |- *.
    cbn [SFadd cond_Zopp Z.add binary_normalize].
    set (ez := Z.min ex ey).
    destruct (shl_align_val 1074 mx ex ez ltac:(lia) ltac:(lia)) as [Ax _].
    destruct (shl_align_val 1074 my ey ez ltac:(lia) ltac:(lia)) as [Ay _].
    assert (Sx : snd (shl_align mx ex ez) = ez).
    { unfold shl_align. destruct (ez - ex) eqn:E; cbn [snd]; lia. }
    assert (Sy : snd (shl_align my ey ez) = ez).
    { unfold shl_align. destruct (ez - ey) eqn:E; cbn [snd]; lia. }
    rewrite Sx in Ax. rewrite Sy in Ay.
    set (a := fst (shl_align mx ex ez)) in *. set (b := fst (shl_align my ey ez)) in *.
    assert (E : Zpos (a + b) * 2 ^ (ez + 1074)
                = Zpos mx * 2 ^ (ex + 1074) + Zpos my * 2 ^ (ey + 1074)).
    { rewrite Pos2Z.inj_add, Z.mul_add_distr_r. congruence. }
    rewrite <- E in Hbig |- *. apply binary_round_val; lia.
Qed.

(** ** Back to primitive floats *)

Lemma leb_val x y : fnn x = true -> fnn y = true ->
  (x <=? y)%float = (fv x <=? fv y).
Proof.
  intros Nx Ny. rewrite leb_spec. unfold SFleb, fv.
  rewrite SFcompare_val by (auto using Prim2SF_valid).
  unfold Z.leb. now destruct (val 1074 (Prim2SF x) ?= val 1074 (Prim2SF y)).
Qed.

Lemma ltb_val x y : fnn x = true -> fnn y = true ->
  (x <? y)%float = (fv x <? fv y).
Proof.
  intros Nx Ny. rewrite ltb_spec. unfold SFltb, fv.
  rewrite SFcompare_val by (auto using Prim2SF_valid).
  unfold Z.ltb. now destruct (val 1074 (Prim2SF x) ?= val 1074 (Prim2SF y)).
Qed.

Lemma fnn_of_leb x hi : (0 <=? x)%float = true -> (x <=? hi)%float = true ->
  fnn hi = true -> fnn x = true.
Proof.
  rewrite !leb_spec. unfold fnn, SFleb.
  change (Prim2SF 0) with (S754_zero false).
  destruct (Prim2SF x) as [s|s| |s m e], (Prim2SF hi) as [s'|s'| |s' m' e'];
    try destruct s; try destruct s'; cbn; congruence.
Qed.

Lemma fnn_of_ltb x hi : (0 <=? x)%float = true -> (x <? hi)%float = true ->
  fnn hi = true -> fnn x = true.
Proof.
  rewrite leb_spec, ltb_spec. unfold fnn, SFleb, SFltb.
  change (Prim2SF 0) with (S754_zero false).
  destruct (Prim2SF x) as [s|s| |s m e], (Prim2SF hi) as [s'|s'| |s' m' e'];
    try destruct s; try destruct s'; cbn; congruence.
Qed.

Lemma val_rescale x : valid_binary x = true ->
  val 2148 x = val 1074 x * 2 ^ 1074.
Proof.
  destruct x as [| | |[] m e]; try reflexivity. intros V.
  apply valid_finite in V. cbn [val].
  replace (e + 2148) with ((e + 1074) + 1074) by lia.
  rewrite (Z.pow_add_r 2 (e + 1074) 1074) by lia. ring.
Qed.

Lemma mul_val x y : fnn x = true -> fnn y = true ->
  fv x * fv y < 2 ^ (2148 + 900) ->
  fnn (x * y) = true /\ fv (x * y) * 2 ^ 1074 = round 2148 (fv x * fv y).
Proof.
  intros Nx Ny Hbig. unfold fnn, fv in *.
  rewrite <- val_rescale by apply Prim2SF_valid. rewrite mul_spec.
  apply SFmul_val; auto using Prim2SF_valid.
Qed.

Lemma add_val x y : fnn x = true -> fnn y = true ->
  fv x + fv y < 2 ^ (1074 + 900) ->
  fnn (x + y) = true /\ fv (x + y) = round 1074 (fv x + fv y).
Proof.
  intros Nx Ny Hbig. unfold fnn, fv in *. rewrite add_spec.
  apply SFadd_val; auto using Prim2SF_valid.
Qed.

Lemma fv_nonneg x : 0 <= fv x.
Proof. apply val_nonneg. Qed.

Lemma fv_big : fv big = 2 ^ 1474.
Proof. reflexivity. Qed.

Lemma round_pow2_2948 : round 2148 (2 ^ 2948) = 2 ^ 2948.
Proof. vm_compute. reflexivity. Qed.

(** [r * a + b] is monotone in [r], on non-negative doubles up to [big]. *)
Lemma mul_add_fv (r r' a b : float) :
  fnn r = true -> fnn r' = true -> fnn a = true -> fnn b = true ->
  fv r <= fv r' -> fv r' <= 2 ^ 1474 -> fv a <= 2 ^ 1474 -> fv b <= 2 ^ 1474 ->
  fnn (r * a + b) = true /\ fnn (r' * a + b) = true /\
  fv (r * a + b) <= fv (r' * a + b).
Proof.
  intros Nr Nr' Na Nb Hrr' Hr' Ha Hb.
  pose proof (fv_nonneg r) as Pr. pose proof (fv_nonneg a) as Pa.
  pose proof (fv_nonneg b) as Pb.
  assert (P2948 : 2 ^ 1474 * 2 ^ 1474 = 2 ^ 2948) by (rewrite <- Z.pow_add_r by lia; reflexivity).
  assert (Hprod' : fv r' * fv a <= 2 ^ 2948).
  { rewrite <- P2948. apply Z.mul_le_mono_nonneg; lia. }
  assert (Hprod : fv r * fv a <= fv r' * fv a) by (apply Z.mul_le_mono_nonneg_r; lia).
  assert (Hlt : 2 ^ 2948 < 2 ^ (2148 + 900)) by (apply Z.pow_lt_mono_r; lia).
  destruct (mul_val r a Nr Na ltac:(lia)) as [Np Ep].
  destruct (mul_val r' a Nr' Na ltac:(lia)) as [Np' Ep'].
  assert (P1074 : 0 < 2 ^ 1074) by (apply Z.pow_pos_nonneg; lia).
  assert (Hp : fv (r * a) <= fv (r' * a)).
  { apply (Z.mul_le_mono_pos_r _ _ (2 ^ 1074) P1074). rewrite Ep, Ep'.
    apply round_mono; [lia|]. split; [apply Z.mul_nonneg_nonneg; lia|lia]. }
  assert (Hp' : fv (r' * a) <= 2 ^ 1874).
  { apply (Z.mul_le_mono_pos_r _ _ (2 ^ 1074) P1074). rewrite Ep'.
    replace (2 ^ 1874 * 2 ^ 1074) with (2 ^ 2948) by (rewrite <- Z.pow_add_r by lia; reflexivity).
    rewrite <- round_pow2_2948. apply round_mono; [lia|].
    split; [apply Z.mul_nonneg_nonneg; lia|lia]. }
  assert (Hsum : 2 ^ 1874 + 2 ^ 1474 < 2 ^ (1074 + 900)).
  { change (1074 + 900) with 1974.
    assert (2 ^ 1474 <= 2 ^ 1874) by (apply Z.pow_le_mono_r; lia).
    replace (2 ^ 1974) with (2 ^ 100 * 2 ^ 1874) by (rewrite <- Z.pow_add_r by lia; reflexivity).
    assert (0 < 2 ^ 1874) by (apply Z.pow_pos_nonneg; lia).
    assert (2 < 2 ^ 100) by reflexivity. nia. }
  pose proof (fv_nonneg (r * a)).
  destruct (add_val (r * a) b Np Nb ltac:(lia)) as [Ns Es].
  destruct (add_val (r' * a) b Np' Nb ltac:(lia)) as [Ns' Es'].
  repeat split; auto. rewrite Es, Es'. apply round_mono; lia.
Qed.

Lemma fnn_big : fnn big = true.
Proof. reflexivity. Qed.

Lemma leb_0_trans (r r' : float) :
  (0 <=? r)%float = true -> (r <=? r')%float = true -> (0 <=? r')%float = true.
Proof.
  rewrite !leb_spec. unfold SFleb.
  change (Prim2SF 0) with (S754_zero false).
  destruct (Prim2SF r) as [s|s| |s m e], (Prim2SF r') as [s'|s'| |s' m' e'];
    try destruct s; try destruct s'; cbn; congruence.
Qed.

Lemma leb_trans (x y z : float) :
  fnn x = true -> fnn y = true -> fnn z = true ->
  (x <=? y)%float = true -> (y <=? z)%float = true -> (x <=? z)%float = true.
Proof.
  intros Nx Ny Nz. rewrite !leb_val by assumption. rewrite !Z.leb_le. lia.
Qed.

Lemma leb_ltb_trans (x y z : float) :
  fnn x = true -> fnn y = true -> fnn z = true ->
  (x <=? y)%float = true -> (y <? z)%float = true -> (x <? z)%float = true.
Proof.
  intros Nx Ny Nz. rewrite leb_val, !ltb_val by assumption.
  rewrite Z.leb_le, !Z.ltb_lt. lia.
Qed.

(** [r * a + b] is monotone in [r] (as the hardware computes it). *)
Lemma mul_add_mono (r r' a b : float) :
  (0 <=? r)%float = true -> (r <=? r')%float = true -> (r' <=? big)%float = true ->
  (0 <=? a)%float = true -> (a <=? big)%float = true ->
  (0 <=? b)%float = true -> (b <=? big)%float = true ->
  fnn (r * a + b) = true /\ fnn (r' * a + b) = true /\
  (r * a + b <=? r' * a + b)%float = true.
Proof.
  intros Hr Hrr' Hr' Ha Ha' Hb Hb'.
  assert (Na : fnn a = true) by (apply (fnn_of_leb a big); auto using fnn_big).
  assert (Nb : fnn b = true) by (apply (fnn_of_leb b big); auto using fnn_big).
  assert (Nr' : fnn r' = true).
  { apply (fnn_of_leb r' big); auto using fnn_big. now apply (leb_0_trans r r'). }
  assert (Nr : fnn r = true) by (apply (fnn_of_leb r r'); auto).
  rewrite leb_val in Hrr', Hr', Ha', Hb' by auto using fnn_big.
  rewrite fv_big in *. apply Z.leb_le in Hrr', Hr', Ha', Hb'.
  destruct (mul_add_fv r r' a b) as (N1 & N2 & H); auto.
  repeat split; auto. rewrite leb_val by auto. now apply Z.leb_le.
Qed.

Lemma fv_one : fv 1 = 2 ^ 53 * 2 ^ 1021.
Proof. reflexivity. Qed.

Lemma fv_pred_one : fv pred_one = (2 ^ 53 - 1) * 2 ^ 1021.
Proof. reflexivity. Qed.

Lemma fv_pred_pred_one : fv pred_pred_one = (2 ^ 53 - 2) * 2 ^ 1021.
Proof. reflexivity. Qed.

(** Between 1/2 and 1 the doubles are 2^-53 apart: a double below
    [m * 2^-53] is at most [(m - 1) * 2^-53]. *)
Lemma fv_discrete (r : float) (m : Z) :
  fnn r = true -> 2 ^ 52 < m <= 2 ^ 53 ->
  fv r < m * 2 ^ 1021 -> fv r <= (m - 1) * 2 ^ 1021.
Proof.
  intros Nr Hm H. unfold fv, fnn in *. pose proof (Prim2SF_valid r) as V.
  assert (P : 0 < 2 ^ 1021) by (apply Z.pow_pos_nonneg; lia).
  destruct (Prim2SF r) as [s|s| |s mr e]; try discriminate Nr.
  - cbn [val]. apply Z.mul_nonneg_nonneg; lia.
  - destruct s; [discriminate Nr|]. apply valid_finite in V as (E & M & N).
    cbn [val] in *.
    destruct (Z_lt_le_dec (e + 1074) 1021) as [Lo|Hi].
    + apply Z.le_trans with (2 ^ 53 * 2 ^ 1020).
      * apply Z.mul_le_mono_nonneg;
          [lia|lia|apply Z.pow_nonneg; lia|apply Z.pow_le_mono_r; lia].
      * change (2 ^ 53 * 2 ^ 1020) with (2 ^ 52 * 2 ^ 1021).
        apply Z.mul_le_mono_nonneg_r; lia.
    + destruct (Z.eq_dec (e + 1074) 1021) as [Eq|Ne].
      * rewrite Eq in *. apply Z.mul_le_mono_nonneg_r; [lia|].
        apply Z.mul_lt_mono_pos_r in H; lia.
      * exfalso. specialize (N ltac:(lia)).
        assert (2 ^ 1022 <= 2 ^ (e + 1074)) by (apply Z.pow_le_mono_r; lia).
        assert (2 ^ 52 * 2 ^ 1022 <= Zpos mr * 2 ^ (e + 1074))
          by (apply Z.mul_le_mono_nonneg; lia).
        change (2 ^ 52 * 2 ^ 1022) with (2 ^ 53 * 2 ^ 1021) in *.
        assert (m * 2 ^ 1021 <= 2 ^ 53 * 2 ^ 1021) by (apply Z.mul_le_mono_nonneg_r; lia).
        lia.
Qed.

Lemma lt_one_le_pred (r : float) :
  (0 <=? r)%float = true -> (r <? 1)%float = true ->
  fnn r = true /\ (r <=? pred_one)%float = true.
Proof.
  intros H0 H1.
  assert (Nr : fnn r = true) by (apply (fnn_of_ltb r 1); auto).
  split; [assumption|].
  rewrite ltb_val in H1 by auto. rewrite leb_val by auto.
  apply Z.ltb_lt in H1. apply Z.leb_le.
  rewrite fv_one in H1. rewrite fv_pred_one.
  apply fv_discrete; [assumption|lia|assumption].
Qed.

Lemma lt_pred_one_le_pred (r : float) :
  (0 <=? r)%float = true -> (r <? pred_one)%float = true ->
  fnn r = true /\ (r <=? pred_pred_one)%float = true.
Proof.
  intros H0 H1.
  assert (Nr : fnn r = true) by (apply (fnn_of_ltb r pred_one); auto).
  split; [assumption|].
  rewrite ltb_val in H1 by auto. rewrite leb_val by auto.
  apply Z.ltb_lt in H1. apply Z.leb_le.
  rewrite fv_pred_one in H1. rewrite fv_pred_pred_one.
  replace (2 ^ 53 - 2) with (2 ^ 53 - 1 - 1) by lia.
  apply fv_discrete; [assumption|lia|assumption].
Qed.

Lemma lt_one_le_big (r : float) :
  (0 <=? r)%float = true -> (r <? 1)%float = true -> (r <=? big)%float = true.
Proof.
  intros H0 H1. destruct (lt_one_le_pred r H0 H1) as [N Hp].
  apply (leb_trans r pred_one big); auto.
Qed.

Lemma ltb_leb_trans (x y z : float) :
  fnn x = true -> fnn y = true -> fnn z = true ->
  (x <? y)%float = true -> (y <=? z)%float = true -> (x <? z)%float = true.
Proof.
  intros Nx Ny Nz. rewrite leb_val, !ltb_val by assumption.
  rewrite Z.leb_le, !Z.ltb_lt. lia.
Qed.

(** The height of a commercial plot, for a draw [r] in [0, 1). *)
Lemma commercial_height_range (r : float) :
  (0 <=? r)%float = true -> (r <? 1)%float = true ->
  fnn (r * 2 + 1.5) = true /\
  (1.5 <=? r * 2 + 1.5)%float = true /\ (r * 2 + 1.5 <=? 3.5)%float = true.
Proof.
  intros H0 H1. destruct (lt_one_le_pred r H0 H1) as [N Hp].
  pose proof (lt_one_le_big r H0 H1) as Hb.
  destruct (mul_add_mono 0 r 2 1.5) as (_ & N1 & H); auto.
  destruct (mul_add_mono r pred_one 2 1.5) as (_ & _ & H'); auto.
Qed.

(** Below the largest draw the commercial height stays below 3.5. *)
Lemma commercial_height_below (r : float) :
  (0 <=? r)%float = true -> (r <? pred_one)%float = true ->
  (r * 2 + 1.5 <? 3.5)%float = true.
Proof.
  intros H0 H1. destruct (lt_pred_one_le_pred r H0 H1) as [N Hp].
  assert (Hb : (r <=? big)%float = true).
  { apply (leb_trans r pred_pred_one big); auto. }
  destruct (mul_add_mono r pred_pred_one 2 1.5) as (N1 & N2 & H); auto.
  apply (leb_ltb_trans _ (pred_pred_one * 2 + 1.5)%float); auto.
Qed.

(** The height of a residential plot, for a draw [r] in [0, 1). *)
Lemma residential_height_range (r : float) :
  (0 <=? r)%float = true -> (r <? 1)%float = true ->
  fnn (r * 0.8 + 0.5) = true /\
  (0.5 <=? r * 0.8 + 0.5)%float = true /\ (r * 0.8 + 0.5 <? 1.3)%float = true.
Proof.
  intros H0 H1. destruct (lt_one_le_pred r H0 H1) as [N Hp].
  pose proof (lt_one_le_big r H0 H1) as Hb.
  destruct (mul_add_mono 0 r 0.8 0.5) as (_ & N1 & H); auto.
  destruct (mul_add_mono r pred_one 0.8 0.5) as (_ & N2 & H'); auto.
  repeat split; auto.
  apply (leb_ltb_trans _ (pred_one * 0.8 + 0.5)%float); auto.
Qed.

(* ===================================================================== *)
(** * The claims *)
(* ===================================================================== *)

(** ** The grids and their ids *)

Lemma is_grid_grid_ids (N : Z) : 0 < N -> is_grid N (grid_ids N).
Proof.
  intros H. repeat split.
  - rewrite length_grid_ids. lia.
  - apply NoDup_grid_ids.
  - apply in_grid_ids.
  - apply in_grid_ids.
Qed.

Lemma basic_ids (N : Z) (size gap : float) :
  map Basic.id (Basic.generate N size gap) = grid_ids N.
Proof.
  apply (nested_ids (fun l : list Basic.Plot => l) N
           (fun x z plots => plots ++ [ {| Basic.id := plot_id x z;
                                           Basic.position := plot_position N size gap x z |} ])).
  - intros x z s. eauto.
  - reflexivity.
  - intros x z s a E. apply app_inv_head in E. injection E as <-. reflexivity.
Qed.

Lemma city_push (N : Z) (size gap : float) (rng : nat -> float) (x z : Z)
    (st : list City.Plot * nat) :
  fst (let '((ty, h), k') := City.cell rng (snd st) in
       (fst st ++ [ {| City.id := plot_id x z;
                       City.position := plot_position N size gap x z;
                       City.type := ty; City.height := h |} ], k'))
  = fst st ++ [ {| City.id := plot_id x z;
                   City.position := plot_position N size gap x z;
                   City.type := fst (fst (City.cell rng (snd st)));
                   City.height := snd (fst (City.cell rng (snd st))) |} ].
Proof. now destruct (City.cell rng (snd st)) as [[ty h] k']. Qed.

Lemma city_ids (N : Z) (size gap : float) (rng : nat -> float) :
  map City.id (fst (City.generate N size gap rng)) = grid_ids N.
Proof.
  apply (nested_ids (@fst (list City.Plot) nat) N
           (fun x z st =>
              let '((ty, h), k') := City.cell rng (snd st) in
              (fst st ++ [ {| City.id := plot_id x z;
                              City.position := plot_position N size gap x z;
                              City.type := ty; City.height := h |} ], k'))).
  - intros x z s. rewrite city_push. eauto.
  - reflexivity.
  - intros x z s a E. rewrite city_push in E.
    apply app_inv_head in E. injection E as <-. reflexivity.
Qed.

Lemma natural_push (N : Z) (size gap : float) (rng : nat -> float) (x z : Z)
    (st : list Natural.Plot * nat) :
  fst (let '(ty, k') := Natural.cell x z rng (snd st) in
       (fst st ++ [ {| Natural.id := plot_id x z;
                       Natural.position := plot_position N size gap x z;
                       Natural.type := ty |} ], k'))
  = fst st ++ [ {| Natural.id := plot_id x z;
                   Natural.position := plot_position N size gap x z;
                   Natural.type := fst (Natural.cell x z rng (snd st)) |} ].
Proof. now destruct (Natural.cell x z rng (snd st)) as [ty k']. Qed.

Lemma natural_ids (N : Z) (size gap : float) (rng : nat -> float) :
  map Natural.id (fst (Natural.generate N size gap rng)) = grid_ids N.
Proof.
  apply (nested_ids (@fst (list Natural.Plot) nat) N
           (fun x z st =>
              let '(ty, k') := Natural.cell x z rng (snd st) in
              (fst st ++ [ {| Natural.id := plot_id x z;
                              Natural.position := plot_position N size gap x z;
                              Natural.type := ty |} ], k'))).
  - intros x z s. rewrite natural_push. eauto.
  - reflexivity.
  - intros x z s a E. rewrite natural_push in E.
    apply app_inv_head in E. injection E as <-. reflexivity.
Qed.

(** C1.  For every grid size [N > 0], whatever the plot size, the gap and
    the random draws, each grid generator (basic, city, natural) produces
    exactly [N * N] records, whose ids are pairwise distinct and are
    exactly the strings ["x-z"] with [x] and [z] in [[0, N)]; for
    [N <= 0] each produces the empty list (and nothing fails: the
    generators are total functions). *)
Theorem C1_grid_generator (N : Z) (size gap : float) (rng : nat -> float) :
  (0 < N ->
   is_grid N (map Basic.id (Basic.generate N size gap)) /\
   is_grid N (map City.id (fst (City.generate N size gap rng))) /\
   is_grid N (map Natural.id (fst (Natural.generate N size gap rng)))) /\
  (N <= 0 ->
   Basic.generate N size gap = [] /\
   fst (City.generate N size gap rng) = [] /\
   fst (Natural.generate N size gap rng) = []).
Proof.
  split.
  - intros H. rewrite basic_ids, city_ids, natural_ids.
    auto using is_grid_grid_ids.
  - intros H. unfold Basic.generate, City.generate, Natural.generate.
    now rewrite !for_loop_skip by lia.
Qed.

(** C1 at [N = 3] and at [N = -1]. *)
Lemma C1_grid_generator_witness :
  (0 < 3 /\
   is_grid 3 (map Basic.id (Basic.generate 3 1 0.1)) /\
   is_grid 3 (map City.id (fst (City.generate 3 1 0.1 (fun _ => 0.5%float)))) /\
   is_grid 3 (map Natural.id (fst (Natural.generate 3 1 0.1 (fun _ => 0.5%float))))) /\
  (-1 <= 0 /\
   Basic.generate (-1) 1 0.1 = [] /\
   fst (City.generate (-1) 1 0.1 (fun _ => 0.5%float)) = [] /\
   fst (Natural.generate (-1) 1 0.1 (fun _ => 0.5%float)) = []).
Proof.
  split; (split; [lia|]).
  - apply (proj1 (C1_grid_generator 3 1 0.1 (fun _ => 0.5%float))). lia.
  - apply (proj2 (C1_grid_generator (-1) 1 0.1 (fun _ => 0.5%float))). lia.
Defined.

(** ** The 2 x 2 scenario *)

(** C2, as stated, fails: the generator centres the grid on [N / 2], not
    on [(N - 1) / 2], so for [N = 2], size 1 and gap 0.1 the record
    ["0-0"] sits at [(-1.1, 0, -1.1)], not at [(-0.55, 0, -0.55)]. *)
Lemma C2_scenario_positions_differ :
  records_eqb (Basic.generate 2 1 0.1) scenario_records = false /\
  (exists p, In p (Basic.generate 2 1 0.1) /\ Basic.id p = "0-0"%string /\
             Basic.position p = [(-1.1)%float; 0%float; (-1.1)%float]) /\
  PrimFloat.eqb (-1.1) (-0.55) = false.
Proof.
  split; [vm_compute; reflexivity|]. split; [|reflexivity].
  eexists. split; [left; reflexivity|]. split; vm_compute; reflexivity.
Qed.

(** C2, amended.  The basic generator run with [N = 2], plot size 1 and
    gap 0.1 yields exactly four records, with ids "0-0", "0-1", "1-0",
    "1-1" and positions [(-1.1, 0, -1.1)], [(-1.1, 0, 0)], [(0, 0, -1.1)],
    [(0, 0, 0)] in that order; the records carry no category field, and
    each is drawn in the single base colour (the unsold one) while it is
    neither selected nor hovered. *)
Theorem C2_basic_grid_2x2 :
  Basic.generate 2 1 0.1
  = [ {| Basic.id := "0-0"; Basic.position := [(-1.1)%float; 0%float; (-1.1)%float] |};
      {| Basic.id := "0-1"; Basic.position := [(-1.1)%float; 0%float; 0%float] |};
      {| Basic.id := "1-0"; Basic.position := [0%float; 0%float; (-1.1)%float] |};
      {| Basic.id := "1-1"; Basic.position := [0%float; 0%float; 0%float] |} ]
  /\ Basic.color (Basic.LandPlot_material false false) = Basic.baseColor.
Proof. split; vm_compute; reflexivity. Qed.

(** ** Colours *)

(** C3, as stated, fails for the city page: a selected residential plot
    looks like an unselected one and unlike a selected commercial plot, so
    no selection colour is shown "regardless of category"; and on a
    selected empty plot hovering replaces the selection glow. *)
Lemma C3_city_selection_not_first :
  ~ selection_first City.LandPlot_colors /\
  City.LandPlot_colors City.residential true false
  = City.LandPlot_colors City.residential false false /\
  City.glowColor (City.LandPlot_colors City.empty true true)
  <> City.glowColor (City.LandPlot_colors City.empty true false).
Proof.
  split; [|split; [reflexivity|discriminate]].
  intros [c H].
  pose proof (H City.residential false) as H1.
  pose proof (H City.commercial false) as H2.
  rewrite <- H2 in H1. discriminate H1.
Qed.

(** C3, amended.  In the basic and the natural renderer the colour is
    decided by selection first, hover second, category last: the basic
    page shows [selectedColor], else [hoverColor], else [baseColor] (and
    the same for the emissive colour, with "#000" last), the natural page
    "#facc15", else "#65a30d", else the colour of the type; on both pages
    the selection colour, the hover colour and every base colour differ
    from each other, so each flag shows.  The map-clone renderer has no
    hover flag: selection overrides the record's colour.  In the city
    renderer the category comes first: residential and commercial plots
    keep their base and their glow colour whatever the selection, only an
    empty plot takes the selection colours "#330000" and "#ff0000", and
    hovering replaces the glow colour alone by "#ffffff", whatever the
    category and the selection. *)
Theorem C3_color_precedence :
  ((forall sel hov,
      Basic.color (Basic.LandPlot_material sel hov)
      = precedence Basic.selectedColor Basic.hoverColor Basic.baseColor sel hov /\
      Basic.emissive (Basic.LandPlot_material sel hov)
      = precedence Basic.selectedColor Basic.hoverColor "#000"%string sel hov) /\
   Basic.selectedColor <> Basic.hoverColor /\
   Basic.selectedColor <> Basic.baseColor /\
   Basic.hoverColor <> Basic.baseColor /\
   selection_first (fun _ : unit => Basic.LandPlot_material)) /\
  ((forall ty sel hov,
      Natural.LandPlot_color ty sel hov
      = precedence Natural.colors_selected "#65a30d"%string (Natural.colors ty) sel hov) /\
   Natural.colors_selected <> "#65a30d"%string /\
   (forall ty, Natural.colors ty <> Natural.colors_selected /\
               Natural.colors ty <> "#65a30d"%string) /\
   selection_first Natural.LandPlot_color /\
   hover_second Natural.LandPlot_color) /\
  ((forall color sel hov,
      MapClone.material_color color sel
      = precedence "#4285F4"%string color color sel hov) /\
   selection_first (fun color sel (_ : bool) => MapClone.material_color color sel)) /\
  (forall sel hov,
     City.LandPlot_colors City.residential sel hov
     = {| City.baseColor := "#001a33";
          City.glowColor := if hov then "#ffffff" else "#00aaff" |} /\
     City.LandPlot_colors City.commercial sel hov
     = {| City.baseColor := "#1a0033";
          City.glowColor := if hov then "#ffffff" else "#bd00ff" |}) /\
  (forall hov,
     City.LandPlot_colors City.empty true hov
     = {| City.baseColor := "#330000";
          City.glowColor := if hov then "#ffffff" else "#ff0000" |} /\
     City.LandPlot_colors City.empty false hov
     = {| City.baseColor := "#050505";
          City.glowColor := if hov then "#ffffff" else "#000" |}) /\
  (forall ty sel hov,
     (City.baseColor (City.LandPlot_colors ty sel hov) = "#330000"%string
      <-> ty = City.empty /\ sel = true) /\
     (City.glowColor (City.LandPlot_colors ty sel hov) = "#ff0000"%string
      <-> ty = City.empty /\ sel = true /\ hov = false)) /\
  (forall ty sel, City.glowColor (City.LandPlot_colors ty sel true) = "#ffffff"%string).
Proof.
  split; [|split; [|split; [|split; [|split; [|split]]]]].
  - split; [|split; [|split; [|split]]]; try discriminate.
    + intros sel hov. split; reflexivity.
    + exists (Basic.LandPlot_material true true). now intros _ [].
  - split; [|split; [|split; [|split]]]; try discriminate.
    + reflexivity.
    + intros ty. now destruct ty.
    + exists Natural.colors_selected. reflexivity.
    + exists "#65a30d"%string. reflexivity.
  - split; [|exists "#4285F4"%string; reflexivity].
    intros color sel hov. now destruct sel, hov.
  - intros sel hov. now destruct sel, hov.
  - intros hov. now destruct hov.
  - intros ty sel hov. split; split.
    + destruct ty, sel, hov; cbn; intros H; try discriminate H; auto.
    + intros [-> ->]. now destruct hov.
    + destruct ty, sel, hov; cbn; intros H; try discriminate H; auto.
    + intros (-> & -> & ->). reflexivity.
  - intros ty sel. now destruct ty, sel.
Qed.

(** ** The natural map: water *)

Lemma natural_cell_water (x z : Z) (rng : nat -> float) (k : nat) :
  fst (Natural.cell x z rng k) = Natural.water <-> x < 3 \/ z > 12.
Proof.
  unfold Natural.cell, JS.Math_random.
  destruct (Z.ltb_spec x 3), (Z.gtb_spec z 12); cbn [orb];
    try (cbn [fst]; split; [intros _; lia|reflexivity]).
  destruct (JS.gt (rng k) 0.9); cbn [fst]; (split; [discriminate|lia]).
Qed.

(** C4.  In the natural-map generator, for every grid size, plot size,
    gap and whatever the random draws are, the record generated for the
    cell [(x, z)] has type [water] if and only if [x < 3] or [z > 12]. *)
Theorem C4_water_rule (N : Z) (size gap : float) (rng : nat -> float)
    (p : Natural.Plot) (x z : Z) :
  In p (fst (Natural.generate N size gap rng)) ->
  0 <= x -> 0 <= z -> Natural.id p = plot_id x z ->
  (Natural.type p = Natural.water <-> x < 3 \/ z > 12).
Proof.
  intros Hp Hx Hz Hid.
  assert (H : Forall (fun p => exists x z, 0 <= x /\ 0 <= z /\
                          Natural.id p = plot_id x z /\
                          (Natural.type p = Natural.water <-> x < 3 \/ z > 12))
                (fst (Natural.generate N size gap rng))).
  { apply (nested_Forall (@fst (list Natural.Plot) nat) N
             (fun x z st =>
                let '(ty, k') := Natural.cell x z rng (snd st) in
                (fst st ++ [ {| Natural.id := plot_id x z;
                                Natural.position := plot_position N size gap x z;
                                Natural.type := ty |} ], k'))).
    - intros x0 z0 s. rewrite natural_push. eauto.
    - constructor.
    - intros x0 z0 s a Hx0 Hz0 E. rewrite natural_push in E.
      apply app_inv_head in E. injection E as <-.
      exists x0, z0. cbn. repeat split; try lia; apply natural_cell_water. }
  rewrite Forall_forall in H.
  destruct (H p Hp) as (x' & z' & Hx' & Hz' & Hid' & Hw).
  rewrite Hid in Hid'. apply plot_id_inj in Hid' as [-> ->]; assumption.
Qed.

(** C4 on the page's own 15 x 15 map, at the cells (2, 5) and (7, 7). *)
Lemma C4_water_rule_witness :
  let rng := fun _ : nat => 0.95%float in
  (Natural.type {| Natural.id := "2-5";
                   Natural.position := plot_position 15 1 0.05 2 5;
                   Natural.type := Natural.water |} = Natural.water
   <-> 2 < 3 \/ 5 > 12) /\
  (Natural.type {| Natural.id := "7-7";
                   Natural.position := plot_position 15 1 0.05 7 7;
                   Natural.type := Natural.dirt |} = Natural.water
   <-> 7 < 3 \/ 7 > 12).
Proof.
  intros rng. split.
  - apply (C4_water_rule 15 1 0.05 rng _ 2 5); try lia; [|reflexivity].
    vm_compute. do 35 right. left. reflexivity.
  - apply (C4_water_rule 15 1 0.05 rng _ 7 7); try lia; [|reflexivity].
    vm_compute. do 112 right. left. reflexivity.
Defined.

(** ** The city: heights *)

Lemma city_cell_heights (rng : nat -> float) (k : nat) :
  unit_draws rng ->
  height_in_range (fst (fst (City.cell rng k))) (snd (fst (City.cell rng k))) /\
  (fst (fst (City.cell rng k)) <> City.empty ->
   fnn (snd (fst (City.cell rng k))) = true).
Proof.
  intros U. unfold City.cell, JS.Math_random.
  destruct (U (S k)) as [L0 L1].
  destruct (JS.gt (rng k) 0.85); [|destruct (JS.gt (rng k) 0.6)]; cbn [fst snd height_in_range].
  - destruct (commercial_height_range (rng (S k)) L0 L1) as (F & Lo & Hi). auto.
  - destruct (residential_height_range (rng (S k)) L0 L1) as (F & Lo & Hi). auto.
  - split; [reflexivity|congruence].
Qed.

Lemma city_plots_heights (N : Z) (size gap : float) (rng : nat -> float) :
  unit_draws rng ->
  Forall (fun p => height_in_range (City.type p) (City.height p) /\
                   (City.type p <> City.empty -> fnn (City.height p) = true))
    (fst (City.generate N size gap rng)).
Proof.
  intros U.
  apply (nested_Forall (@fst (list City.Plot) nat) N
           (fun x z st =>
              let '((ty, h), k') := City.cell rng (snd st) in
              (fst st ++ [ {| City.id := plot_id x z;
                              City.position := plot_position N size gap x z;
                              City.type := ty; City.height := h |} ], k'))).
  - intros x z s. rewrite city_push. eauto.
  - constructor.
  - intros x z s a _ _ E. rewrite city_push in E.
    apply app_inv_head in E. injection E as <-. cbn [City.type City.height].
    now apply city_cell_heights.
Qed.

Lemma city_cell_commercial_open (rng : nat -> float) (k : nat) :
  unit_draws rng -> PrimFloat.ltb (rng (S k)) pred_one = true ->
  height_in_open_range (fst (fst (City.cell rng k))) (snd (fst (City.cell rng k))).
Proof.
  intros U Hlt. destruct (city_cell_heights rng k U) as [R _]. revert R.
  unfold City.cell, JS.Math_random.
  destruct (JS.gt (rng k) 0.85); [|destruct (JS.gt (rng k) 0.6)];
    cbn [fst snd height_in_range height_in_open_range]; auto.
  intros [Lo _]. split; [assumption|].
  apply commercial_height_below; [apply U|assumption].
Qed.

(** C5, as stated, fails at the largest draw below 1: a commercial plot
    whose height draw is [1 - 2^-53] gets [(1 - 2^-53) * 2 + 1.5], which
    the double arithmetic rounds to 3.5 exactly, so the commercial range
    is closed at 3.5. *)
Lemma C5_commercial_height_reaches_bound :
  let rng := fun k : nat => match k with O => 0.9%float | _ => pred_one end in
  unit_draws rng /\
  City.cell rng 0 = ((City.commercial, 3.5%float), 2%nat) /\
  PrimFloat.ltb 3.5 3.5 = false /\
  ~ height_in_open_range (fst (fst (City.cell rng 0))) (snd (fst (City.cell rng 0))) /\
  exists p, In p (City.cityData rng) /\ City.type p = City.commercial /\
            City.height p = 3.5%float.
Proof.
  intros rng. split; [|split; [|split; [|split]]].
  - intros [|k]; split; reflexivity.
  - reflexivity.
  - reflexivity.
  - intros [_ H]. discriminate H.
  - exists {| City.id := "0-0";
              City.position := plot_position City.GRID_SIZE City.PLOT_SIZE City.GAP 0 0;
              City.type := City.commercial; City.height := 3.5%float |}.
    split; [vm_compute; left; reflexivity|]. split; reflexivity.
Qed.

(** C5, amended.  In the city generator, when every draw lies in [0, 1):
    an empty plot has height 0; a residential plot has its height in
    [0.5, 1.3); a commercial plot has its height in [1.5, 3.5], the upper
    bound included, and below 3.5 whenever its height draw is below the
    largest double under 1; hence every residential or commercial plot
    has a height above 0, and every commercial height, of this run or of
    any other, is strictly above every residential height. *)
Theorem C5_city_heights (N N' : Z) (size gap size' gap' : float)
    (rng rng' : nat -> float) :
  unit_draws rng -> unit_draws rng' ->
  (forall p, In p (fst (City.generate N size gap rng)) ->
     height_in_range (City.type p) (City.height p) /\
     (City.type p <> City.empty -> PrimFloat.ltb 0 (City.height p) = true)) /\
  (forall p q,
     In p (fst (City.generate N size gap rng)) ->
     In q (fst (City.generate N' size' gap' rng')) ->
     City.type p = City.commercial -> City.type q = City.residential ->
     PrimFloat.ltb (City.height q) (City.height p) = true) /\
  (forall k, PrimFloat.ltb (rng (S k)) pred_one = true ->
     height_in_open_range (fst (fst (City.cell rng k))) (snd (fst (City.cell rng k)))).
Proof.
  intros U U'.
  pose proof (city_plots_heights N size gap rng U) as H.
  pose proof (city_plots_heights N' size' gap' rng' U') as H'.
  rewrite Forall_forall in H, H'.
  split; [|split; [|intros k; now apply city_cell_commercial_open]].
  - intros p Hp. destruct (H p Hp) as [R F]. split; [assumption|].
    intros Ne. specialize (F Ne).
    destruct (City.type p); [contradiction| |]; destruct R as [Lo _].
    + apply (ltb_leb_trans 0 0.5 (City.height p)); auto.
    + apply (ltb_leb_trans 0 1.5 (City.height p)); auto.
  - intros p q Hp Hq Tp Tq.
    destruct (H p Hp) as [Rp Fp]. destruct (H' q Hq) as [Rq Fq].
    rewrite Tp in Rp, Fp. rewrite Tq in Rq, Fq.
    destruct Rp as [Lo _], Rq as [_ Hi].
    specialize (Fp ltac:(discriminate)). specialize (Fq ltac:(discriminate)).
    apply (ltb_leb_trans _ 1.3 _); auto.
    apply (leb_trans 1.3 1.5 _); auto.
Qed.

(** C5 on a 2 x 2 corner of the city: the draws 0.7, 0.5 give a
    residential plot, the draws 0.9, 0.5 a commercial one, and the
    remaining draws 0.5 empty plots. *)
Lemma C5_city_heights_witness :
  let rng := fun k : nat =>
    match k with 2%nat => 0.9%float | O => 0.7%float | _ => 0.5%float end in
  let data := fst (City.generate 2 1 0.15 rng) in
  unit_draws rng /\
  (forall p, In p data ->
     height_in_range (City.type p) (City.height p) /\
     (City.type p <> City.empty -> PrimFloat.ltb 0 (City.height p) = true)) /\
  (forall p q, In p data -> In q data ->
     City.type p = City.commercial -> City.type q = City.residential ->
     PrimFloat.ltb (City.height q) (City.height p) = true) /\
  (forall k, PrimFloat.ltb (rng (S k)) pred_one = true ->
     height_in_open_range (fst (fst (City.cell rng k))) (snd (fst (City.cell rng k)))).
Proof.
  intros rng data.
  assert (U : unit_draws rng) by (intros [|[|[|k]]]; split; reflexivity).
  split; [exact U|]. exact (C5_city_heights 2 2 1 0.15 1 0.15 rng rng U U).
Defined.

(** ** Selection *)

Lemma isSelected_iff (st : GridScene.State) (i : string) :
  GridScene.isSelected st i = true <-> GridScene.selectedPlot st = Some i.
Proof.
  unfold GridScene.isSelected. destruct (GridScene.selectedPlot st) as [s|].
  - rewrite String.eqb_eq. split; congruence.
  - split; discriminate.
Qed.

Lemma NoDup_map_inj_in {A B : Type} (f : A -> B) (l : list A) (a b : A) :
  NoDup (map f l) -> In a l -> In b l -> f a = f b -> a = b.
Proof.
  induction l as [|c l IH]; cbn; intros ND Ha Hb E; [contradiction|].
  inversion ND as [|? ? Hc ND']; subst.
  destruct Ha as [->|Ha], Hb as [->|Hb]; auto.
  - exfalso. apply Hc. rewrite E. now apply in_map.
  - exfalso. apply Hc. rewrite <- E. now apply in_map.
Qed.

(** C6.  In any state where plot [A] is selected, a click on another plot
    [B] makes [selectedPlot] equal to [B]: the flag [isSelected] of [B]
    is then true and that of [A] false.  And in every reachable state, at
    most one plot of the generated grid has its [isSelected] flag true. *)
Theorem C6_single_selection :
  (forall (st : GridScene.State) (A B : string),
     GridScene.selectedPlot st = Some A -> A <> B ->
     GridScene.selectedPlot (GridScene.step st (GridScene.Click B)) = Some B /\
     GridScene.isSelected (GridScene.step st (GridScene.Click B)) B = true /\
     GridScene.isSelected (GridScene.step st (GridScene.Click B)) A = false) /\
  (forall (st : GridScene.State) (N : Z) (size gap : float) (p q : Basic.Plot),
     GridScene.reachable st ->
     In p (Basic.generate N size gap) -> In q (Basic.generate N size gap) ->
     GridScene.isSelected st (Basic.id p) = true ->
     GridScene.isSelected st (Basic.id q) = true ->
     p = q).
Proof.
  split.
  - intros st A B HA HAB. cbn. rewrite String.eqb_refl.
    repeat split. now apply String.eqb_neq.
  - intros st N size gap p q _ Hp Hq Sp Sq.
    apply isSelected_iff in Sp, Sq.
    apply (NoDup_map_inj_in Basic.id (Basic.generate N size gap)); auto.
    + rewrite basic_ids. apply NoDup_grid_ids.
    + congruence.
Qed.

(** C6 on the 2 x 2 grid: "0-0" is selected, then "1-1" is clicked. *)
Lemma C6_single_selection_witness :
  let st := GridScene.step GridScene.init (GridScene.Click "0-0") in
  let st' := GridScene.step st (GridScene.Click "1-1") in
  (GridScene.selectedPlot st' = Some "1-1"%string /\
   GridScene.isSelected st' "1-1" = true /\
   GridScene.isSelected st' "0-0" = false) /\
  {| Basic.id := "1-1"; Basic.position := plot_position 2 1 0.1 1 1 |}
  = {| Basic.id := "1-1"; Basic.position := [0%float; 0%float; 0%float] |}.
Proof.
  intros st st'. split.
  - apply (proj1 C6_single_selection st "0-0"%string "1-1"%string);
      [reflexivity|discriminate].
  - apply (proj2 C6_single_selection st' 2 1%float 0.1%float).
    + repeat constructor.
    + vm_compute. do 3 right. left. reflexivity.
    + vm_compute. do 3 right. left. reflexivity.
    + reflexivity.
    + reflexivity.
Defined.

(** ** The map-clone page: broken shapes *)

Lemma index_in_range {A : Type} (l : list A) (i : Z) :
  0 <= i < Z.of_nat (List.length l) -> exists a, JS.index l i = Some a.
Proof.
  intros H. unfold JS.index. destruct (Z_lt_dec i 0); [lia|].
  destruct (nth_error l (Z.to_nat i)) eqn:E; [eauto|].
  apply nth_error_None in E. lia.
Qed.

(** With at least one point, building the [THREE.Shape] does not throw. *)
Lemma threeShape_normal (pts : list MapClone.point) :
  (0 < List.length pts)%nat -> exists s, MapClone.threeShape pts = JS.Normal s.
Proof.
  intros H. unfold MapClone.threeShape, MapClone.point_at.
  destruct (index_in_range pts 0 ltac:(lia)) as (p0 & ->).
  assert (L : exists s,
             JS.for_loop (Z.of_nat (List.length pts))
               (fun i acc =>
                  match acc, match JS.index pts i with
                             | Some p => JS.Normal p
                             | None => JS.TypeError
                             end with
                  | JS.Normal s, JS.Normal p =>
                    JS.Normal (s ++ [MapClone.lineTo (fst p) (snd p)])
                  | _, _ => JS.TypeError
                  end)
               1 (JS.Normal [MapClone.moveTo (fst p0) (snd p0)]) = JS.Normal s).
  { apply (for_loop_inv (fun _ acc => exists s, acc = JS.Normal s)); [eauto|].
    intros i acc Hi (s & ->).
    destruct (index_in_range pts i ltac:(lia)) as (p & ->). eauto. }
  destruct L as (s & ->). eauto.
Qed.

Lemma LandPolygon_broken shape color name sel :
  broken shape -> MapClone.LandPolygon shape color name sel = JS.Normal None.
Proof.
  destruct shape as [pts|]; cbn; [|reflexivity].
  intros H. destruct (Z.ltb_spec (Z.of_nat (List.length pts)) 3); [reflexivity|lia].
Qed.

Lemma LandPolygon_total shape color name sel :
  (exists el, MapClone.LandPolygon shape color name sel = JS.Normal (Some el)
              /\ ~ broken shape) \/
  (MapClone.LandPolygon shape color name sel = JS.Normal None /\ broken shape).
Proof.
  destruct shape as [pts|]; cbn; [|now right].
  destruct (Z.ltb_spec (Z.of_nat (List.length pts)) 3) as [Lt|Ge]; [right; split; [reflexivity|lia]|].
  left. destruct (threeShape_normal pts ltac:(lia)) as (s & ->).
  unfold MapClone.point_at. destruct (index_in_range pts 0 ltac:(lia)) as (p0 & ->).
  eexists. split; [reflexivity|lia].
Qed.

Lemma render_total (ls : list MapClone.Land) (st : MapClone.State) :
  exists out, MapClone.render ls st = JS.Normal out /\
    forall k el, In (k, el) out ->
      exists land, In land ls /\ MapClone.id land = k /\ ~ broken (MapClone.shape land).
Proof.
  induction ls as [|land ls (out & E & H)]; cbn [MapClone.render fold_right].
  - exists []. split; [reflexivity|]. intros k el [].
  - fold (MapClone.render ls st). rewrite E.
    destruct (LandPolygon_total (MapClone.shape land) (MapClone.color land)
                (MapClone.name land) (MapClone.isSelected st (MapClone.id land)))
      as [(el & -> & Hok)|[-> Hbad]].
    + exists ((MapClone.id land, el) :: out). split; [reflexivity|].
      intros k el' [Heq|Hin].
      * injection Heq as <- <-. exists land. repeat split; [now left|assumption].
      * destruct (H k el' Hin) as (l' & ? & ? & ?). exists l'.
        repeat split; [now right|assumption|assumption].
    + exists out. split; [reflexivity|].
      intros k el' Hin. destruct (H k el' Hin) as (l' & ? & ? & ?). exists l'.
      repeat split; [now right|assumption|assumption].
Qed.

(** C7.  A record whose shape is [null] or has fewer than 3 points makes
    [LandPolygon] return [null] without throwing; rendering any list of
    records throws nothing either, and, the ids being distinct, the id of
    such a record is not among the mounted elements. *)
Theorem C7_broken_shape_skipped :
  (forall shape color name sel,
     broken shape -> MapClone.LandPolygon shape color name sel = JS.Normal None) /\
  (forall (ls : list MapClone.Land) (st : MapClone.State) (land : MapClone.Land),
     NoDup (map MapClone.id ls) -> In land ls -> broken (MapClone.shape land) ->
     exists out, MapClone.render ls st = JS.Normal out /\
                 ~ In (MapClone.id land) (map fst out)).
Proof.
  split; [exact LandPolygon_broken|].
  intros ls st land ND Hin Hbad.
  destruct (render_total ls st) as (out & E & H).
  exists out. split; [assumption|]. intros Hk.
  apply in_map_iff in Hk as ([k el] & Ek & Hel). cbn in Ek. subst k.
  destruct (H _ _ Hel) as (land' & Hin' & Eid & Hok).
  apply Hok. now rewrite (NoDup_map_inj_in MapClone.id ls land' land ND Hin' Hin Eid).
Qed.

(** C7 on three records: two points, [null], and a triangle. *)
Lemma C7_broken_shape_skipped_witness :
  let segment := {| MapClone.id := 0; MapClone.name := MapClone.generateLandName 0;
                    MapClone.shape := Some [(0%float, 0%float); (1%float, 0%float)];
                    MapClone.color := "#F8F9FA" |} in
  let missing := {| MapClone.id := 1; MapClone.name := MapClone.generateLandName 1;
                    MapClone.shape := None; MapClone.color := "#C5E8C5" |} in
  let triangle := {| MapClone.id := 2; MapClone.name := MapClone.generateLandName 2;
                     MapClone.shape := Some [(0%float, 0%float); (1%float, 0%float);
                                             (0%float, 1%float)];
                     MapClone.color := "#F8F9FA" |} in
  MapClone.LandPolygon (MapClone.shape missing) "#C5E8C5" "x" false = JS.Normal None /\
  exists out, MapClone.render [segment; missing; triangle] MapClone.init = JS.Normal out /\
              ~ In (MapClone.id segment) (map fst out).
Proof.
  intros segment missing triangle. split.
  - apply (proj1 C7_broken_shape_skipped). exact I.
  - apply (proj2 C7_broken_shape_skipped).
    + repeat constructor; cbn; intuition lia.
    + now left.
    + cbn. lia.
Defined.

(** ** The map-clone page: display names *)

(** C8, as stated, fails: the type list has six words and is indexed by
    [id mod 6]; at id 6 the page shows "Maple District 6", where indexing
    by [id mod 10] would find no word. *)
Lemma C8_type_list_not_mod10 :
  MapClone.generateLandName 6 = "Maple District 6"%string /\
  displayName_mod10 6 = "Maple undefined 6"%string /\
  MapClone.generateLandName 6 <> displayName_mod10 6.
Proof. repeat split. discriminate. Qed.

Lemma index_mod {A : Type} (l : list A) (i : Z) :
  0 <= i -> l <> [] ->
  exists a, JS.index l (Z.rem i (Z.of_nat (List.length l))) = Some a /\
            nth_error l (Z.to_nat (i mod Z.of_nat (List.length l))) = Some a.
Proof.
  intros Hi Hl.
  assert (0 < Z.of_nat (List.length l)) by (destruct l; [contradiction|cbn; lia]).
  rewrite Z.rem_mod_nonneg by lia.
  pose proof (Z.mod_pos_bound i (Z.of_nat (List.length l)) ltac:(lia)).
  destruct (index_in_range l (i mod Z.of_nat (List.length l)) ltac:(lia)) as (a & E).
  exists a. split; [assumption|].
  unfold JS.index in E. now destruct (Z_lt_dec _ 0); [lia|].
Qed.

Lemma make_lands_names (cellPolygon : Z -> option (list MapClone.point))
    (points : list MapClone.point) (rng : nat -> float) (k : nat) :
  Forall (fun l => MapClone.name l = MapClone.generateLandName (MapClone.id l))
    (fst (MapClone.make_lands cellPolygon points rng k)).
Proof.
  unfold MapClone.make_lands.
  apply (for_loop_inv
           (fun _ st => Forall (fun l => MapClone.name l
                                        = MapClone.generateLandName (MapClone.id l))
                          (fst st))); [constructor|].
  intros i [ls k'] _ H. cbn. apply Forall_app. split; [assumption|].
  now repeat constructor.
Qed.

(** C8, amended.  For every id [i >= 0] the name is the word of the name
    list at index [i mod 10], a space, the word of the type list at index
    [i mod 6], a space, and the decimal digits of [i]; it is a function
    of the id alone, and every generated record carries the name of its
    own id, so records with equal ids have equal names. *)
Theorem C8_display_name :
  (forall i, 0 <= i ->
     exists n t,
       nth_error MapClone.names (Z.to_nat (i mod 10)) = Some n /\
       nth_error MapClone.types (Z.to_nat (i mod 6)) = Some t /\
       MapClone.generateLandName i = (n ++ " " ++ t ++ " " ++ JS.toString i)%string) /\
  (forall voronoi rng l l',
     In l (MapClone.lands voronoi rng) -> In l' (MapClone.lands voronoi rng) ->
     MapClone.id l = MapClone.id l' -> MapClone.name l = MapClone.name l').
Proof.
  split.
  - intros i Hi. unfold MapClone.generateLandName.
    destruct (index_mod MapClone.names i Hi ltac:(discriminate)) as (n & -> & En).
    destruct (index_mod MapClone.types i Hi ltac:(discriminate)) as (t & -> & Et).
    exists n, t. repeat split; assumption.
  - intros voronoi rng l l' Hl Hl' E. unfold MapClone.lands in *.
    destruct (MapClone.random_points MapClone.LAND_COUNT rng 0) as [points k].
    pose proof (make_lands_names (voronoi points) points rng k) as H.
    rewrite Forall_forall in H. rewrite (H l Hl), (H l' Hl'). now rewrite E.
Qed.

(** C8 at id 16: "Maple" is [names[6]], "Grove" is [types[4]]. *)
Lemma C8_display_name_witness :
  exists n t,
    nth_error MapClone.names (Z.to_nat (16 mod 10)) = Some n /\
    nth_error MapClone.types (Z.to_nat (16 mod 6)) = Some t /\
    MapClone.generateLandName 16 = (n ++ " " ++ t ++ " " ++ JS.toString 16)%string.
Proof. apply (proj1 C8_display_name 16). lia. Defined.
(** ** Re-selection *)

(** C9.  Clicking the plot that is already selected leaves the state as
    it is, on the grid pages and on the map-clone page. *)
Theorem C9_reselect_idempotent :
  (forall (st : GridScene.State) (i : string),
     GridScene.selectedPlot st = Some i ->
     GridScene.step st (GridScene.Click i) = st) /\
  (forall (st : MapClone.State) (i : Z),
     MapClone.selectedId st = Some i ->
     MapClone.step st (MapClone.Click i) = st).
Proof.
  split; intros [sel other] i H; cbn in *; now subst.
Qed.

(** C9 after one click on "3-4", and after one click on land 7. *)
Lemma C9_reselect_idempotent_witness :
  GridScene.step (GridScene.step GridScene.init (GridScene.Click "3-4"))
    (GridScene.Click "3-4")
  = GridScene.step GridScene.init (GridScene.Click "3-4") /\
  MapClone.step (MapClone.step MapClone.init (MapClone.Click 7)) (MapClone.Click 7)
  = MapClone.step MapClone.init (MapClone.Click 7).
Proof.
  split.
  - apply (proj1 C9_reselect_idempotent). reflexivity.
  - apply (proj2 C9_reselect_idempotent). reflexivity.
Defined.

(** ** The map-clone page: what events change *)

(** C10.  On the map-clone page the state has two cells, [selectedId] and
    [zoom], and no hover flag.  Pointer-enter and pointer-leave leave the
    state as it is; a click sets [selectedId] to the clicked id and keeps
    [zoom]; the zoom buttons keep [selectedId] and set [zoom] to
    [min(zoom + 5, 50)] and [max(zoom - 5, 10)].  Hence only a click can
    change [selectedId] and only a zoom button can change [zoom]. *)
Theorem C10_map_clone_frame (st : MapClone.State) :
  (forall i, MapClone.step st (MapClone.PointerEnter i) = st) /\
  (forall i, MapClone.step st (MapClone.PointerLeave i) = st) /\
  (forall i, MapClone.step st (MapClone.Click i)
             = {| MapClone.selectedId := Some i; MapClone.zoom := MapClone.zoom st |}) /\
  MapClone.step st MapClone.ZoomIn
  = {| MapClone.selectedId := MapClone.selectedId st;
       MapClone.zoom := JS.Math_min (MapClone.zoom st + 5)%float 50%float |} /\
  MapClone.step st MapClone.ZoomOut
  = {| MapClone.selectedId := MapClone.selectedId st;
       MapClone.zoom := JS.Math_max (MapClone.zoom st - 5)%float 10%float |} /\
  (forall e, MapClone.selectedId (MapClone.step st e) <> MapClone.selectedId st ->
             exists i, e = MapClone.Click i) /\
  (forall e, MapClone.zoom (MapClone.step st e) <> MapClone.zoom st ->
             e = MapClone.ZoomIn \/ e = MapClone.ZoomOut).
Proof.
  repeat split; try (intros [] H; cbn in H; eauto; contradiction).
Qed.


(* ===================================================================== *)
(** * Further properties of the pages *)
(* ===================================================================== *)

(** ** The map-clone page: zoom *)

Lemma zoom_in_levels (z : float) :
  In z zoom_levels -> In (JS.Math_min (z + 5)%float 50%float) zoom_levels.
Proof.
  unfold zoom_levels. cbn [In]. intros H.
  repeat (destruct H as [<-|H]; [vm_compute; tauto|]). contradiction.
Qed.

Lemma zoom_out_levels (z : float) :
  In z zoom_levels -> In (JS.Math_max (z - 5)%float 10%float) zoom_levels.
Proof.
  unfold zoom_levels. cbn [In]. intros H.
  repeat (destruct H as [<-|H]; [vm_compute; tauto|]). contradiction.
Qed.

Lemma reachable_zoom_levels (st : MapClone.State) :
  MapClone.reachable st -> In (MapClone.zoom st) zoom_levels.
Proof.
  induction 1 as [|st e _ IH].
  - vm_compute. tauto.
  - destruct e; cbn [MapClone.step MapClone.zoom]; auto using zoom_in_levels, zoom_out_levels.
Qed.

(** X1.  Whatever the buttons pressed, the zoom of the map-clone page is
    one of the nine levels 10, 15, ..., 50: it starts at 15, moves in
    steps of 5 and is clamped by [Math.min] and [Math.max], so it never
    leaves the range [minZoom, maxZoom] = [10, 50] of the map controls. *)
Theorem X1_zoom_stays_in_range (st : MapClone.State) :
  MapClone.reachable st ->
  In (MapClone.zoom st) zoom_levels /\
  PrimFloat.leb 10 (MapClone.zoom st) = true /\
  PrimFloat.leb (MapClone.zoom st) 50 = true.
Proof.
  intros R. pose proof (reachable_zoom_levels st R) as H.
  split; [assumption|]. revert H. unfold zoom_levels. cbn [In]. intros H.
  repeat (destruct H as [<-|H]; [split; reflexivity|]). contradiction.
Qed.

Lemma X1_zoom_stays_in_range_witness :
  let st := MapClone.step (MapClone.step MapClone.init MapClone.ZoomOut) MapClone.ZoomOut in
  In (MapClone.zoom st) zoom_levels /\
  PrimFloat.leb 10 (MapClone.zoom st) = true /\
  PrimFloat.leb (MapClone.zoom st) 50 = true.
Proof.
  intros st. apply X1_zoom_stays_in_range. repeat constructor.
Defined.

(** X2.  In every state the page can reach, the two zoom buttons undo
    each other away from the ends of the range: "+" then "-" restores
    the state when the zoom is below 50, "-" then "+" when it is above
    10; at 50 the "+" button, and at 10 the "-" button, changes
    nothing. *)
Theorem X2_zoom_buttons_undo (st : MapClone.State) :
  MapClone.reachable st ->
  (PrimFloat.ltb (MapClone.zoom st) 50 = true ->
   MapClone.step (MapClone.step st MapClone.ZoomIn) MapClone.ZoomOut = st) /\
  (PrimFloat.ltb 10 (MapClone.zoom st) = true ->
   MapClone.step (MapClone.step st MapClone.ZoomOut) MapClone.ZoomIn = st) /\
  (MapClone.zoom st = 50%float -> MapClone.step st MapClone.ZoomIn = st) /\
  (MapClone.zoom st = 10%float -> MapClone.step st MapClone.ZoomOut = st).
Proof.
  intros R. pose proof (reachable_zoom_levels st R) as H.
  destruct st as [sel z]. cbn [MapClone.zoom MapClone.step MapClone.selectedId] in *.
  revert H. unfold zoom_levels. cbn [In]. intros H.
  repeat split; intros Hz;
    repeat (destruct H as [<-|H];
            [first [reflexivity | discriminate Hz | (exfalso; vm_compute in Hz; discriminate Hz)]|]);
    try contradiction.
Qed.

Lemma X2_zoom_buttons_undo_witness :
  MapClone.step (MapClone.step MapClone.init MapClone.ZoomIn) MapClone.ZoomOut
  = MapClone.init /\
  MapClone.step (MapClone.step MapClone.init MapClone.ZoomOut) MapClone.ZoomOut
  = MapClone.step MapClone.init MapClone.ZoomOut.
Proof.
  split.
  - apply (proj1 (X2_zoom_buttons_undo MapClone.init MapClone.reach_init)).
    reflexivity.
  - apply (proj2 (proj2 (proj2 (X2_zoom_buttons_undo
             (MapClone.step MapClone.init MapClone.ZoomOut)
             (MapClone.reach_step _ _ MapClone.reach_init))))).
    reflexivity.
Defined.

(** ** The grid pages: traces of events *)

Lemma run_selected (evs : list GridScene.Event) (st : GridScene.State) :
  GridScene.selectedPlot (GridScene.run st evs)
  = last_click evs (GridScene.selectedPlot st).
Proof.
  unfold GridScene.run. revert st.
  induction evs as [|e evs IH]; intros st; cbn [fold_left last_click]; [reflexivity|].
  rewrite IH. now destruct e.
Qed.

Lemma last_click_some (evs : list GridScene.Event) (d : option string) :
  d <> None -> last_click evs d <> None.
Proof.
  revert d. induction evs as [|e evs IH]; intros d Hd; cbn [last_click]; [assumption|].
  destruct e; apply IH; [discriminate|assumption|assumption].
Qed.

Lemma reachable_run (st : GridScene.State) :
  GridScene.reachable st <-> exists evs, st = GridScene.run GridScene.init evs.
Proof.
  split.
  - induction 1 as [|st e _ (evs & ->)].
    + now exists [].
    + exists (evs ++ [e]). unfold GridScene.run. now rewrite fold_left_app.
  - intros (evs & ->). unfold GridScene.run.
    induction evs as [|e evs IH] using rev_ind; [constructor|].
    rewrite fold_left_app. cbn [fold_left]. now constructor.
Qed.

(** X3.  On the grid pages the selection is the plot of the last click:
    after any sequence of events [selectedPlot] holds the id of the last
    click in it (and [null] before the first one), whatever the pointer
    moves in between; so once a plot is selected, no sequence of events
    brings the page back to "no plot selected". *)
Theorem X3_selection_is_last_click :
  (forall evs,
     GridScene.selectedPlot (GridScene.run GridScene.init evs) = last_click evs None) /\
  (forall st evs,
     GridScene.selectedPlot st <> None ->
     GridScene.selectedPlot (GridScene.run st evs) <> None) /\
  (forall st, GridScene.reachable st <-> exists evs, st = GridScene.run GridScene.init evs).
Proof.
  split; [|split].
  - intros evs. apply run_selected.
  - intros st evs H. rewrite run_selected. now apply last_click_some.
  - apply reachable_run.
Qed.

Lemma X3_selection_is_last_click_witness :
  let st := GridScene.step GridScene.init (GridScene.Click "1-2") in
  let evs := [GridScene.PointerOver "0-0"; GridScene.Click "3-3";
              GridScene.PointerOut "0-0"] in
  GridScene.selectedPlot (GridScene.run st evs) <> None.
Proof.
  intros st evs. apply (proj1 (proj2 X3_selection_is_last_click)). discriminate.
Defined.

Lemma run_hovered (i : string) (evs : list GridScene.Event) (st : GridScene.State) :
  GridScene.hovered (GridScene.run st evs) i
  = last_pointer i evs (GridScene.hovered st i).
Proof.
  unfold GridScene.run. revert st.
  induction evs as [|e evs IH]; intros st; cbn [fold_left last_pointer]; [reflexivity|].
  rewrite IH. now destruct e.
Qed.

(** X4.  Each plot keeps its own hover flag: after any sequence of
    events the flag of a plot is true exactly when the last pointer event
    on that very plot was a pointer-over; clicks and the pointer events of
    other plots do not touch it.  Nothing ties the flags together: a state
    in which two different plots are hovered at once is reachable. *)
Theorem X4_hover_flags_independent :
  (forall i evs,
     GridScene.hovered (GridScene.run GridScene.init evs) i = last_pointer i evs false) /\
  (forall st i e,
     e <> GridScene.PointerOver i -> e <> GridScene.PointerOut i ->
     GridScene.hovered (GridScene.step st e) i = GridScene.hovered st i) /\
  (forall st i,
     GridScene.hovered (GridScene.step st (GridScene.PointerOver i)) i = true /\
     GridScene.hovered (GridScene.step st (GridScene.PointerOut i)) i = false) /\
  (forall i j, i <> j ->
     exists st, GridScene.reachable st /\
                GridScene.hovered st i = true /\ GridScene.hovered st j = true).
Proof.
  split; [|split; [|split]].
  - intros i evs. apply run_hovered.
  - intros st i e H1 H2. destruct e as [k|k|k]; cbn; try reflexivity.
    + destruct (String.eqb_spec i k); [subst; contradiction|reflexivity].
    + destruct (String.eqb_spec i k); [subst; contradiction|reflexivity].
  - intros st i. cbn. now rewrite String.eqb_refl.
  - intros i j Hij.
    exists (GridScene.step (GridScene.step GridScene.init (GridScene.PointerOver i))
              (GridScene.PointerOver j)).
    split; [repeat constructor|]. cbn. rewrite !String.eqb_refl.
    now destruct (String.eqb_spec i j).
Qed.

Lemma X4_hover_flags_independent_witness :
  GridScene.hovered
    (GridScene.step (GridScene.step GridScene.init (GridScene.PointerOver "0-0"))
       (GridScene.Click "5-5")) "0-0"
  = GridScene.hovered (GridScene.step GridScene.init (GridScene.PointerOver "0-0")) "0-0"
  /\ exists st, GridScene.reachable st /\
                GridScene.hovered st "0-0" = true /\ GridScene.hovered st "0-1" = true.
Proof.
  split.
  - apply (proj1 (proj2 X4_hover_flags_independent)); discriminate.
  - apply (proj2 (proj2 (proj2 X4_hover_flags_independent))). discriminate.
Defined.

(** ** The basic page: the overlay *)

Lemma plot_id_nonempty (x z : Z) : plot_id x z <> EmptyString.
Proof. unfold plot_id. destruct (JS.toString x); discriminate. Qed.

(** X5.  The overlay of the basic page tests [selectedPlot] for truth,
    not against [null]: it shows "No plot selected" on mount and whenever
    the stored id is the empty string, and the panel of the plot
    otherwise.  The ids of the generated plots are never empty, so after
    a click on any generated plot, and after any pointer moves that
    follow, the panel shows that plot. *)
Theorem X5_overlay_shows_clicked_plot :
  Basic.overlay (GridScene.selectedPlot GridScene.init) = Basic.NoPlotSelected /\
  (forall st, Basic.overlay (GridScene.selectedPlot (GridScene.step st (GridScene.Click "")))
              = Basic.NoPlotSelected) /\
  (forall N size gap p st e,
     In p (Basic.generate N size gap) ->
     (forall i, e <> GridScene.Click i) ->
     Basic.overlay
       (GridScene.selectedPlot
          (GridScene.step (GridScene.step st (GridScene.Click (Basic.id p))) e))
     = Basic.PlotPanel ("Selected: Plot #" ++ Basic.id p)
         "Price: 2.5 ETH" "Owner: Available" "BUY NOW").
Proof.
  split; [reflexivity|]. split; [reflexivity|].
  intros N size gap p st e Hp He.
  assert (Hid : In (Basic.id p) (grid_ids N)).
  { rewrite <- (basic_ids N size gap). now apply in_map. }
  apply in_grid_ids in Hid as (x & z & _ & _ & Hid).
  pose proof (plot_id_nonempty x z) as Hne. rewrite <- Hid in Hne.
  destruct e as [i|i|i]; [now destruct (He i)| |];
    cbn [GridScene.step GridScene.setHover GridScene.selectedPlot];
    unfold Basic.overlay, JS.truthy, JS.template;
    destruct (Basic.id p); [contradiction|reflexivity|contradiction|reflexivity].
Qed.

Lemma X5_overlay_shows_clicked_plot_witness :
  Basic.overlay
    (GridScene.selectedPlot
       (GridScene.step
          (GridScene.step GridScene.init
             (GridScene.Click
                (Basic.id {| Basic.id := "0-1";
                             Basic.position := [(-1.1)%float; 0%float; 0%float] |})))
          (GridScene.PointerOver "1-1")))
  = Basic.PlotPanel "Selected: Plot #0-1" "Price: 2.5 ETH" "Owner: Available" "BUY NOW".
Proof.
  apply (proj2 (proj2 X5_overlay_shows_clicked_plot) 2 1%float 0.1%float).
  - vm_compute. right. left. reflexivity.
  - discriminate.
Defined.

(** ** The grid generators: records, order and draws *)

Section NestedLoopsMore.

Context {S A : Type} (proj : S -> list A) (N : Z) (body : Z -> Z -> S -> S).

Lemma nested_inv (Inv : S -> Prop) (s0 : S) :
  Inv s0 ->
  (forall x z s, 0 <= x < N -> 0 <= z < N -> Inv s -> Inv (body x z s)) ->
  Inv (nested N body s0).
Proof.
  intros H0 Hstep. unfold nested.
  apply (for_loop_inv (fun _ s => Inv s)); [assumption|].
  intros x s Hx Hs.
  apply (for_loop_inv (fun _ t => Inv t)); [assumption|].
  intros z t Hz Ht. now apply Hstep.
Qed.

Lemma nested_map {B : Type} (f : A -> B) (g : Z -> Z -> B) (s0 : S) :
  proj s0 = [] ->
  (forall x z s, exists a, proj (body x z s) = proj s ++ [a] /\ f a = g x z) ->
  map f (proj (nested N body s0)) = grid_of N g.
Proof.
  intros H0 Hpush. unfold nested, grid_of.
  set (row := fun x => map (g x) (zrange N)).
  rewrite <- (zrange_max N).
  apply (for_loop_inv (fun x s => map f (proj s) = flat_map row (zrange x))).
  - now rewrite H0.
  - intros x s Hx Hs. rewrite zrange_succ, flat_map_app by lia.
    cbn [flat_map]. rewrite app_nil_r, <- Hs. unfold row.
    rewrite <- (zrange_max N).
    apply (for_loop_inv
             (fun z t => map f (proj t) = map f (proj s) ++ map (g x) (zrange z))).
    + cbn. now rewrite app_nil_r.
    + intros z t Hz Ht. destruct (Hpush x z t) as (a & Ea & Fa).
      rewrite Ea, map_app, Ht, zrange_succ, map_app, app_assoc by lia.
      cbn [map]. now rewrite Fa.
Qed.

End NestedLoopsMore.

Lemma nth_error_zrange (n i : Z) :
  0 <= i < n -> nth_error (zrange n) (Z.to_nat i) = Some i.
Proof.
  intros H. unfold zrange.
  rewrite nth_error_map, nth_error_seq.
  destruct (Nat.ltb_spec (Z.to_nat i) (Z.to_nat n)); [|lia].
  cbn. f_equal. lia.
Qed.

Lemma nth_error_grid_of {A : Type} (N : Z) (mk : Z -> Z -> A) (x z : Z) :
  0 <= x < N -> 0 <= z < N ->
  nth_error (grid_of N mk) (Z.to_nat (x * N + z)) = Some (mk x z).
Proof.
  intros Hx Hz. unfold grid_of.
  assert (G : forall l k, nth_error l k = Some x ->
            nth_error (flat_map (fun x => map (mk x) (zrange N)) l)
              (k * Z.to_nat N + Z.to_nat z) = Some (mk x z)).
  { induction l as [|y l IH]; intros [|k] E; try discriminate.
    - injection E as ->. cbn [flat_map]. rewrite nth_error_app1.
      + cbn. rewrite nth_error_map, nth_error_zrange by lia. reflexivity.
      + rewrite length_map, length_zrange. lia.
    - cbn [flat_map]. rewrite nth_error_app2.
      + rewrite length_map, length_zrange.
        replace (S k * Z.to_nat N + Z.to_nat z - Z.to_nat N)%nat
          with (k * Z.to_nat N + Z.to_nat z)%nat by lia.
        now apply IH.
      + rewrite length_map, length_zrange. lia. }
  replace (Z.to_nat (x * N + z)) with (Z.to_nat x * Z.to_nat N + Z.to_nat z)%nat by nia.
  apply G. apply nth_error_zrange. lia.
Qed.

(** X6.  The basic generator lists the cells row by row: its output is
    the list of the records [{id: "x-z", position: ...}] for [x] from 0 to
    [N - 1] and, within each [x], [z] from 0 to [N - 1]; so the record of
    the cell [(x, z)] is the entry number [x * N + z]. *)
Theorem X6_basic_generator_row_major (N : Z) (size gap : float) :
  Basic.generate N size gap
  = grid_of N (fun x z => {| Basic.id := plot_id x z;
                             Basic.position := plot_position N size gap x z |}) /\
  (forall x z, 0 <= x < N -> 0 <= z < N ->
     nth_error (Basic.generate N size gap) (Z.to_nat (x * N + z))
     = Some {| Basic.id := plot_id x z;
               Basic.position := plot_position N size gap x z |}).
Proof.
  assert (E : Basic.generate N size gap
              = grid_of N (fun x z => {| Basic.id := plot_id x z;
                                         Basic.position := plot_position N size gap x z |})).
  { rewrite <- (map_id (Basic.generate N size gap)).
    apply (nested_map (fun l : list Basic.Plot => l) N
             (fun x z plots => plots ++ [ {| Basic.id := plot_id x z;
                                             Basic.position := plot_position N size gap x z |} ])
             (fun p => p)); [reflexivity|].
    intros x z s. eauto. }
  split; [exact E|]. intros x z Hx Hz. rewrite E.
  exact (nth_error_grid_of N
           (fun x z => {| Basic.id := plot_id x z;
                          Basic.position := plot_position N size gap x z |}) x z Hx Hz).
Qed.

Lemma X6_basic_generator_row_major_witness :
  nth_error (Basic.generate 10 1 0.1) (Z.to_nat (3 * 10 + 4))
  = Some {| Basic.id := plot_id 3 4; Basic.position := plot_position 10 1 0.1 3 4 |}.
Proof. apply (proj2 (X6_basic_generator_row_major 10 1 0.1)); lia. Defined.

(** X7.  The city and the natural generator place their records like the
    basic one: whatever the random draws, the ids and positions of their
    records are, in order, those of the cells [(x, z)] listed row by row;
    the draws only decide the type and the height. *)
Theorem X7_city_natural_positions (N : Z) (size gap : float) (rng : nat -> float) :
  map (fun p => (City.id p, City.position p)) (fst (City.generate N size gap rng))
  = grid_of N (fun x z => (plot_id x z, plot_position N size gap x z)) /\
  map (fun p => (Natural.id p, Natural.position p)) (fst (Natural.generate N size gap rng))
  = grid_of N (fun x z => (plot_id x z, plot_position N size gap x z)).
Proof.
  split.
  - apply (nested_map (@fst (list City.Plot) nat) N
             (fun x z st =>
                let '((ty, h), k') := City.cell rng (snd st) in
                (fst st ++ [ {| City.id := plot_id x z;
                                City.position := plot_position N size gap x z;
                                City.type := ty; City.height := h |} ], k')));
      [reflexivity|].
    intros x z s. rewrite city_push. eauto.
  - apply (nested_map (@fst (list Natural.Plot) nat) N
             (fun x z st =>
                let '(ty, k') := Natural.cell x z rng (snd st) in
                (fst st ++ [ {| Natural.id := plot_id x z;
                                Natural.position := plot_position N size gap x z;
                                Natural.type := ty |} ], k')));
      [reflexivity|].
    intros x z s. rewrite natural_push. eauto.
Qed.

Lemma city_push_snd (N : Z) (size gap : float) (rng : nat -> float) (x z : Z)
    (st : list City.Plot * nat) :
  snd (let '((ty, h), k') := City.cell rng (snd st) in
       (fst st ++ [ {| City.id := plot_id x z;
                       City.position := plot_position N size gap x z;
                       City.type := ty; City.height := h |} ], k'))
  = snd (City.cell rng (snd st)).
Proof. now destruct (City.cell rng (snd st)) as [[ty h] k']. Qed.

Lemma natural_push_snd (N : Z) (size gap : float) (rng : nat -> float) (x z : Z)
    (st : list Natural.Plot * nat) :
  snd (let '(ty, k') := Natural.cell x z rng (snd st) in
       (fst st ++ [ {| Natural.id := plot_id x z;
                       Natural.position := plot_position N size gap x z;
                       Natural.type := ty |} ], k'))
  = snd (Natural.cell x z rng (snd st)).
Proof. now destruct (Natural.cell x z rng (snd st)) as [ty k']. Qed.

Lemma city_cell_draws (rng : nat -> float) (k : nat) :
  snd (City.cell rng k)
  = match fst (fst (City.cell rng k)) with
    | City.empty => S k
    | _ => S (S k)
    end.
Proof.
  unfold City.cell, JS.Math_random.
  now destruct (JS.gt (rng k) 0.85); [|destruct (JS.gt (rng k) 0.6)].
Qed.

Lemma natural_cell_draws (x z : Z) (rng : nat -> float) (k : nat) :
  snd (Natural.cell x z rng k)
  = match fst (Natural.cell x z rng k) with
    | Natural.water => k
    | _ => S k
    end.
Proof.
  unfold Natural.cell, JS.Math_random.
  now destruct ((x <? 3) || (z >? 12)); [|destruct (JS.gt (rng k) 0.9)].
Qed.

Lemma city_draws (N : Z) (size gap : float) (rng : nat -> float) :
  snd (City.generate N size gap rng)
  = (List.length (fst (City.generate N size gap rng))
     + List.length (filter has_building (fst (City.generate N size gap rng))))%nat.
Proof.
  apply (nested_inv N
           (fun x z st =>
              let '((ty, h), k') := City.cell rng (snd st) in
              (fst st ++ [ {| City.id := plot_id x z;
                              City.position := plot_position N size gap x z;
                              City.type := ty; City.height := h |} ], k'))
           (fun st => snd st = (List.length (fst st)
                                + List.length (filter has_building (fst st)))%nat));
    [reflexivity|].
  intros x z st _ _ H.
  rewrite city_push, city_push_snd, city_cell_draws, filter_app, !length_app.
  unfold has_building at 2. cbn [filter City.type List.length].
  destruct (fst (fst (City.cell rng (snd st)))); cbn [List.length]; lia.
Qed.

Lemma natural_draws (N : Z) (size gap : float) (rng : nat -> float) :
  snd (Natural.generate N size gap rng)
  = List.length (filter is_land (fst (Natural.generate N size gap rng))).
Proof.
  apply (nested_inv N
           (fun x z st =>
              let '(ty, k') := Natural.cell x z rng (snd st) in
              (fst st ++ [ {| Natural.id := plot_id x z;
                              Natural.position := plot_position N size gap x z;
                              Natural.type := ty |} ], k'))
           (fun st => snd st = List.length (filter is_land (fst st))));
    [reflexivity|].
  intros x z st _ _ H.
  rewrite natural_push, natural_push_snd, natural_cell_draws, filter_app, !length_app.
  unfold is_land at 2. cbn [filter Natural.type List.length].
  destruct (fst (Natural.cell x z rng (snd st))); cbn [List.length]; lia.
Qed.

(** X8.  The generators call [Math.random()] once per cell and once more
    per building in the city, and once per cell that is not water on the
    natural map: the number of draws consumed is the number of records
    plus the number of buildings, respectively the number of records that
    are not water. *)
Theorem X8_draws_consumed (N : Z) (size gap : float) (rng : nat -> float) :
  snd (City.generate N size gap rng)
  = (List.length (fst (City.generate N size gap rng))
     + List.length (filter has_building (fst (City.generate N size gap rng))))%nat /\
  snd (Natural.generate N size gap rng)
  = List.length (filter is_land (fst (Natural.generate N size gap rng))).
Proof. split; [apply city_draws|apply natural_draws]. Qed.

(** ** The city page: buildings *)

(** X14.  With draws in [0, 1), the city renderer mounts a [Building] on
    a generated plot exactly when the plot's height is above 0; the
    tower then has that height and its group sits at half of it. *)
Theorem X14_building_iff_positive_height (N : Z) (size gap : float)
    (rng : nat -> float) (p : City.Plot) (isSelected hovered : bool) :
  unit_draws rng -> In p (fst (City.generate N size gap rng)) ->
  (City.LandPlot_building (City.type p) (City.height p) isSelected hovered <> None
   <-> PrimFloat.ltb 0 (City.height p) = true) /\
  (forall b,
     City.LandPlot_building (City.type p) (City.height p) isSelected hovered = Some b ->
     City.tower_height b = City.height p /\
     City.group_y b = (City.height p / 2)%float /\
     City.tower_color b = City.glowColor (City.LandPlot_colors (City.type p) isSelected hovered)).
Proof.
  intros U Hp. pose proof (city_plots_heights N size gap rng U) as H.
  rewrite Forall_forall in H. destruct (H p Hp) as [R F].
  split.
  - destruct (City.type p) eqn:T; cbn [City.LandPlot_building height_in_range] in *.
    + rewrite R. split; [congruence|discriminate].
    + split; [intros _|discriminate].
      apply (ltb_leb_trans 0 0.5 (City.height p)); auto; [apply F; discriminate|apply R].
    + split; [intros _|discriminate].
      apply (ltb_leb_trans 0 1.5 (City.height p)); auto; [apply F; discriminate|apply R].
  - intros b Hb. destruct (City.type p); cbn in Hb; [discriminate| |];
      injection Hb as <-; repeat split.
Qed.

Lemma X14_building_iff_positive_height_witness :
  let rng := fun _ : nat => 0.7%float in
  let p := {| City.id := "0-0"; City.position := plot_position 1 1 0.15 0 0;
              City.type := City.residential;
              City.height := (0.7 * 0.8 + 0.5)%float |} in
  City.LandPlot_building (City.type p) (City.height p) false false <> None
  <-> PrimFloat.ltb 0 (City.height p) = true.
Proof.
  intros rng p.
  apply (X14_building_iff_positive_height 1 1 0.15 rng p false false).
  - intros k. split; reflexivity.
  - vm_compute. left. reflexivity.
Defined.

(** ** The map-clone page: what a polygon draws *)

Lemma firstn_snoc {A : Type} (l : list A) (n : nat) (a : A) :
  nth_error l n = Some a -> firstn (S n) l = firstn n l ++ [a].
Proof.
  revert n. induction l as [|b l IH]; intros [|n] E; try discriminate.
  - now injection E as ->.
  - change (firstn (S (S n)) (b :: l)) with (b :: firstn (S n) l).
    change (firstn (S n) (b :: l)) with (b :: firstn n l).
    rewrite <- app_comm_cons. f_equal. apply IH. exact E.
Qed.

Lemma index_cons {A : Type} (a : A) (l : list A) (i : Z) :
  1 <= i -> JS.index (a :: l) i = nth_error l (Z.to_nat (i - 1)).
Proof.
  intros H. unfold JS.index. destruct (Z_lt_dec i 0); [lia|].
  replace (Z.to_nat i) with (S (Z.to_nat (i - 1))) by lia. reflexivity.
Qed.

(** The loop of [threeShape] draws a line to each point after the first,
    in order. *)
Lemma threeShape_path (p0 : MapClone.point) (rest : list MapClone.point) :
  MapClone.threeShape (p0 :: rest)
  = JS.Normal (MapClone.moveTo (fst p0) (snd p0)
               :: map (fun p => MapClone.lineTo (fst p) (snd p)) rest
               ++ [MapClone.closePath]).
Proof.
  unfold MapClone.threeShape, MapClone.point_at.
  change (JS.index (p0 :: rest) 0) with (Some p0).
  set (L := fun p : MapClone.point => MapClone.lineTo (fst p) (snd p)).
  set (len := Z.of_nat (List.length (p0 :: rest))).
  assert (Hlen : len = Z.of_nat (List.length rest) + 1) by (unfold len; cbn [List.length]; lia).
  assert (H : JS.for_loop len
                (fun i acc =>
                   match acc, match JS.index (p0 :: rest) i with
                              | Some p => JS.Normal p
                              | None => JS.TypeError
                              end with
                   | JS.Normal s, JS.Normal p => JS.Normal (s ++ [MapClone.lineTo (fst p) (snd p)])
                   | _, _ => JS.TypeError
                   end)
                1 (JS.Normal [MapClone.moveTo (fst p0) (snd p0)])
              = JS.Normal (MapClone.moveTo (fst p0) (snd p0)
                           :: map L (firstn (Z.to_nat (Z.max 1 len - 1)) rest))).
  { apply (for_loop_inv
             (fun i acc => acc = JS.Normal (MapClone.moveTo (fst p0) (snd p0)
                                            :: map L (firstn (Z.to_nat (i - 1)) rest))));
      [reflexivity|].
    intros i acc Hi ->. rewrite index_cons by lia.
    destruct (nth_error rest (Z.to_nat (i - 1))) as [p|] eqn:E.
    - replace (Z.to_nat (i + 1 - 1)) with (S (Z.to_nat (i - 1))) by lia.
      rewrite (firstn_snoc rest _ p E), map_app. reflexivity.
    - apply nth_error_None in E. lia. }
  cbv beta iota in H |- *. rewrite H.
  replace (Z.to_nat (Z.max 1 len - 1)) with (List.length rest) by lia.
  now rewrite firstn_all.
Qed.

Lemma length_flat (pts : list MapClone.point) :
  List.length (MapClone.flat pts) = (2 * List.length pts)%nat.
Proof.
  unfold MapClone.flat. induction pts as [|p pts IH]; simpl; lia.
Qed.

(** X9.  Whenever [LandPolygon] mounts an element, its shape has a first
    point and at least two more; the outline starts at the first point,
    draws one line to each further point in order and closes the path;
    the border buffer holds the coordinates of all points and of the
    first one again, each rounded to single precision by the
    [Float32Array], exactly [count * itemSize] numbers; the label is
    present exactly when the polygon is selected, anchored at the first
    point (in double precision). *)
Theorem X9_polygon_geometry (shape : option (list MapClone.point))
    (color name : string) (isSelected : bool) (el : MapClone.Element) :
  MapClone.LandPolygon shape color name isSelected = JS.Normal (Some el) ->
  exists p0 rest,
    shape = Some (p0 :: rest) /\ (2 <= List.length rest)%nat /\
    MapClone.mesh_shape el
    = MapClone.moveTo (fst p0) (snd p0)
      :: map (fun p => MapClone.lineTo (fst p) (snd p)) rest ++ [MapClone.closePath] /\
    MapClone.border_array el
    = map JS.Math_fround (MapClone.flat (p0 :: rest) ++ [fst p0; snd p0]) /\
    Z.of_nat (List.length (MapClone.border_array el)) = MapClone.border_count el * 2 /\
    MapClone.mesh_color el = MapClone.material_color color isSelected /\
    MapClone.label el
    = (if isSelected then Some ([fst p0; 2%float; snd p0], name) else None).
Proof.
  destruct shape as [[|p0 rest]|]; cbn [MapClone.LandPolygon]; try discriminate.
  destruct (Z.ltb_spec (Z.of_nat (List.length (p0 :: rest))) 3) as [Lt|Ge];
    [discriminate|].
  rewrite threeShape_path. unfold MapClone.point_at.
  change (JS.index (p0 :: rest) 0) with (Some p0).
  intros [= <-]. exists p0, rest. cbn [List.length] in Ge.
  cbn [MapClone.mesh_shape MapClone.border_array MapClone.border_count
       MapClone.mesh_color MapClone.label].
  split; [reflexivity|]. split; [lia|]. split; [reflexivity|].
  split; [reflexivity|]. split; [|split; reflexivity].
  cbn [List.length]. rewrite length_map, length_app, length_flat.
  cbn [List.length]. lia.
Qed.

(** X9 on a triangle with the vertex (0.1, 0.3): the outline and the label
    keep the doubles, the border buffer holds their single-precision
    roundings 0.10000000149011612 and 0.30000001192092896. *)
Lemma X9_polygon_geometry_witness :
  let a := (0.1%float, 0.3%float) in
  let b := (1%float, 0%float) in
  let c := (0%float, 1%float) in
  exists el,
    MapClone.LandPolygon (Some [a; b; c]) "#F8F9FA" "Greenwood District 0" true
    = JS.Normal (Some el) /\
    MapClone.border_array el
    = [0x1.99999ap-4; 0x1.333334p-2; 1; 0; 0; 1; 0x1.99999ap-4; 0x1.333334p-2]%float /\
    exists p0 rest,
      Some [a; b; c] = Some (p0 :: rest) /\ (2 <= List.length rest)%nat /\
      MapClone.mesh_shape el
      = MapClone.moveTo (fst p0) (snd p0)
        :: map (fun p => MapClone.lineTo (fst p) (snd p)) rest ++ [MapClone.closePath] /\
      MapClone.border_array el
      = map JS.Math_fround (MapClone.flat (p0 :: rest) ++ [fst p0; snd p0]) /\
      Z.of_nat (List.length (MapClone.border_array el)) = MapClone.border_count el * 2 /\
      MapClone.mesh_color el = MapClone.material_color "#F8F9FA" true /\
      MapClone.label el
      = (if true then Some ([fst p0; 2%float; snd p0], "Greenwood District 0"%string)
         else None).
Proof.
  intros a b c. eexists. split; [vm_compute; reflexivity|].
  split; [vm_compute; reflexivity|].
  apply (X9_polygon_geometry (Some [a; b; c]) "#F8F9FA" "Greenwood District 0" true).
  vm_compute. reflexivity.
Defined.

(** ** The map-clone page: the generated lands *)

Lemma random_point_eq (rng : nat -> float) (k : nat) :
  MapClone.random_point rng k
  = (((rng k - 0.5) * MapClone.MAP_SIZE, (rng (S k) - 0.5) * MapClone.MAP_SIZE)%float,
     S (S k)).
Proof. reflexivity. Qed.

Lemma random_points_eq (count : Z) (rng : nat -> float) (k : nat) :
  MapClone.random_points count rng k
  = (map (fun i => fst (MapClone.random_point rng (k + 2 * Z.to_nat i)))
       (zrange count),
     (k + 2 * Z.to_nat count)%nat).
Proof.
  unfold MapClone.random_points.
  rewrite <- (zrange_max count).
  replace (Z.to_nat count) with (Z.to_nat (Z.max 0 count)) by lia.
  apply (for_loop_inv
           (fun x st =>
              st = (map (fun i => fst (MapClone.random_point rng (k + 2 * Z.to_nat i)))
                      (zrange x),
                    (k + 2 * Z.to_nat x)%nat))).
  - cbn. f_equal. lia.
  - intros i st Hi ->. cbn [fst snd]. rewrite !random_point_eq.
    rewrite zrange_succ, map_app by lia. cbn [map fst].
    rewrite !random_point_eq. cbn [fst]. f_equal. lia.
Qed.

Lemma make_lands_eq (cellPolygon : Z -> option (list MapClone.point))
    (points : list MapClone.point) (rng : nat -> float) (k : nat) :
  MapClone.make_lands cellPolygon points rng k
  = (map (fun i => {| MapClone.id := i;
                      MapClone.name := MapClone.generateLandName i;
                      MapClone.shape := cellPolygon i;
                      MapClone.color :=
                        if JS.gt (rng (k + Z.to_nat i)%nat) 0.85
                        then "#C5E8C5" else "#F8F9FA" |})
       (zrange (Z.of_nat (List.length points))),
     (k + List.length points)%nat).
Proof.
  unfold MapClone.make_lands.
  set (n := Z.of_nat (List.length points)).
  replace (List.length points) with (Z.to_nat (Z.max 0 n)) by lia.
  rewrite <- (zrange_max n).
  apply (for_loop_inv
           (fun x st =>
              st = (map (fun i => {| MapClone.id := i;
                                     MapClone.name := MapClone.generateLandName i;
                                     MapClone.shape := cellPolygon i;
                                     MapClone.color :=
                                       if JS.gt (rng (k + Z.to_nat i)%nat) 0.85
                                       then "#C5E8C5" else "#F8F9FA" |})
                      (zrange x),
                    (k + Z.to_nat x)%nat))).
  - cbn. f_equal. lia.
  - intros i st Hi ->. cbn [fst snd JS.Math_random].
    rewrite zrange_succ, map_app by lia. cbn [map]. f_equal. lia.
Qed.

(** X10.  The map-clone generator in closed form.  [random_points] draws
    two numbers per point, the x coordinate first; [make_lands] gives the
    record number [i] the id [i], the name of [i], the Voronoi cell of
    [i] and one colour draw, taken after all the points were drawn.  So
    the page has exactly [LAND_COUNT] records with the ids
    [0 .. LAND_COUNT - 1] in order, each park-green or plain, and the
    colour of the record [i] is decided by the draw number
    [2 * LAND_COUNT + i]. *)
Theorem X10_lands_generator (voronoi : list MapClone.point -> Z -> option (list MapClone.point))
    (rng : nat -> float) :
  let points := map (fun i => fst (MapClone.random_point rng (2 * Z.to_nat i)))
                  (zrange MapClone.LAND_COUNT) in
  (forall count k,
     MapClone.random_points count rng k
     = (map (fun i => fst (MapClone.random_point rng (k + 2 * Z.to_nat i)))
          (zrange count),
        (k + 2 * Z.to_nat count)%nat)) /\
  MapClone.lands voronoi rng
  = map (fun i => {| MapClone.id := i;
                     MapClone.name := MapClone.generateLandName i;
                     MapClone.shape := voronoi points i;
                     MapClone.color :=
                       if JS.gt (rng (2 * Z.to_nat MapClone.LAND_COUNT + Z.to_nat i)%nat) 0.85
                       then "#C5E8C5" else "#F8F9FA" |})
      (zrange MapClone.LAND_COUNT) /\
  map MapClone.id (MapClone.lands voronoi rng) = zrange MapClone.LAND_COUNT /\
  List.length (MapClone.lands voronoi rng) = Z.to_nat MapClone.LAND_COUNT /\
  Forall (fun l => MapClone.color l = "#C5E8C5"%string \/ MapClone.color l = "#F8F9FA"%string)
    (MapClone.lands voronoi rng).
Proof.
  intros points.
  assert (E : MapClone.lands voronoi rng
              = map (fun i => {| MapClone.id := i;
                                 MapClone.name := MapClone.generateLandName i;
                                 MapClone.shape := voronoi points i;
                                 MapClone.color :=
                                   if JS.gt (rng (2 * Z.to_nat MapClone.LAND_COUNT
                                                  + Z.to_nat i)%nat) 0.85
                                   then "#C5E8C5" else "#F8F9FA" |})
                  (zrange MapClone.LAND_COUNT)).
  { unfold MapClone.lands. rewrite random_points_eq. cbn [Nat.add].
    fold points. rewrite make_lands_eq. cbn [fst].
    unfold points at 2. rewrite length_map, length_zrange, Z2Nat.id by discriminate.
    reflexivity. }
  split; [intros count k; apply random_points_eq|]. split; [exact E|].
  rewrite E. split; [|split].
  - rewrite map_map. cbn [MapClone.id]. apply map_id.
  - now rewrite length_map, length_zrange.
  - apply Forall_forall. intros l Hl. apply in_map_iff in Hl as (i & <- & _).
    cbn [MapClone.color]. destruct (JS.gt _ _); auto.
Qed.

(** ** The map-clone page: what gets mounted *)

Lemma renderable_iff (land : MapClone.Land) :
  renderable land = true <-> ~ broken (MapClone.shape land).
Proof.
  unfold renderable, broken. destruct (MapClone.shape land) as [pts|].
  - rewrite Z.leb_le. lia.
  - split; [discriminate|tauto].
Qed.

Lemma LandPolygon_label shape color name sel el :
  MapClone.LandPolygon shape color name sel = JS.Normal (Some el) ->
  (MapClone.label el <> None <-> sel = true).
Proof.
  destruct shape as [pts|]; cbn [MapClone.LandPolygon]; [|discriminate].
  destruct (Z.of_nat (List.length pts) <? 3); [discriminate|].
  destruct (MapClone.threeShape pts); [|discriminate].
  destruct (MapClone.point_at pts 0); [|discriminate].
  intros [= <-]. cbn [MapClone.label].
  destruct sel; split; congruence.
Qed.

Lemma isSelected_Some (st : MapClone.State) (k : Z) :
  MapClone.isSelected st k = true <-> MapClone.selectedId st = Some k.
Proof.
  unfold MapClone.isSelected. destruct (MapClone.selectedId st) as [s|].
  - rewrite Z.eqb_eq. split; congruence.
  - split; discriminate.
Qed.

Lemma render_spec (ls : list MapClone.Land) (st : MapClone.State) :
  exists out, MapClone.render ls st = JS.Normal out /\
    map fst out = map MapClone.id (filter renderable ls) /\
    forall k el, In (k, el) out ->
      (MapClone.label el <> None <-> MapClone.selectedId st = Some k).
Proof.
  induction ls as [|land ls (out & E & M & H)]; cbn [MapClone.render fold_right].
  - exists []. repeat split; intros; contradiction.
  - fold (MapClone.render ls st). rewrite E. cbn [filter].
    destruct (LandPolygon_total (MapClone.shape land) (MapClone.color land)
                (MapClone.name land) (MapClone.isSelected st (MapClone.id land)))
      as [(el & Eel & Hok)|[Eel Hbad]]; rewrite Eel.
    + apply renderable_iff in Hok. rewrite Hok.
      exists ((MapClone.id land, el) :: out). split; [reflexivity|]. split.
      * cbn [map fst]. now rewrite M.
      * intros k el' [[= <- <-]|Hin]; [|now apply H].
        rewrite (LandPolygon_label _ _ _ _ _ Eel). apply isSelected_Some.
    + destruct (renderable land) eqn:R.
      * apply renderable_iff in R. contradiction.
      * exists out. auto.
Qed.

(** X11.  Rendering never throws and mounts exactly the records whose
    shape has at least 3 points, in the order of the list and each under
    its own id; a mounted polygon carries a label exactly when its id is
    the selected one, so all labels on screen belong to one id, and
    before the first click there is none. *)
Theorem X11_render_mounts_renderable (ls : list MapClone.Land) (st : MapClone.State) :
  exists out, MapClone.render ls st = JS.Normal out /\
    map fst out = map MapClone.id (filter renderable ls) /\
    (forall k el, In (k, el) out ->
       (MapClone.label el <> None <-> MapClone.selectedId st = Some k)) /\
    (forall k el k' el', In (k, el) out -> In (k', el') out ->
       MapClone.label el <> None -> MapClone.label el' <> None -> k = k') /\
    (MapClone.selectedId st = None ->
     forall k el, In (k, el) out -> MapClone.label el = None).
Proof.
  destruct (render_spec ls st) as (out & E & M & H).
  exists out. repeat split; try assumption; try apply H; try assumption.
  - intros k el k' el' Hin Hin' L L'.
    apply (H _ _ Hin) in L. apply (H _ _ Hin') in L'. congruence.
  - intros N k el Hin. destruct (MapClone.label el) eqn:L; [|reflexivity].
    assert (L' : MapClone.label el <> None) by congruence.
    apply (H _ _ Hin) in L'. congruence.
Qed.

(** ** The map-clone page: names tell the ids apart *)

Lemma no_space_uint (d : uint) : no_space (NilEmpty.string_of_uint d) = true.
Proof. induction d; cbn; auto. Qed.

Lemma no_space_toString (x : Z) : 0 <= x -> no_space (JS.toString x) = true.
Proof.
  intros H. destruct (toString_nonneg x H) as (d & _ & ->). apply no_space_uint.
Qed.

Lemma no_space_app_space (s t : string) : no_space (s ++ " " ++ t) = false.
Proof.
  induction s as [|c s IH]; [reflexivity|].
  change (no_space (String c (s ++ " " ++ t)) = false).
  cbn [no_space]. rewrite IH. apply andb_false_r.
Qed.

Lemma last_word_app (s t : string) :
  no_space t = true -> last_word (s ++ " " ++ t) = t.
Proof.
  intros H. induction s as [|c s IH].
  - cbn. now rewrite H.
  - change (String c s ++ " " ++ t)%string with (String c (s ++ " " ++ t)).
    cbn [last_word]. now rewrite no_space_app_space.
Qed.

Lemma last_word_generateLandName (i : Z) :
  0 <= i -> last_word (MapClone.generateLandName i) = JS.toString i.
Proof.
  intros H. unfold MapClone.generateLandName.
  set (n := JS.template _). set (t := JS.template _).
  replace (n ++ " " ++ t ++ " " ++ JS.toString i)%string
    with ((n ++ " " ++ t) ++ " " ++ JS.toString i)%string.
  - apply last_word_app. now apply no_space_toString.
  - clearbody n t. induction n as [|c n IH]; [reflexivity|].
    change ((String c ((n ++ " " ++ t) ++ " " ++ JS.toString i)
             = String c (n ++ " " ++ t ++ " " ++ JS.toString i))%string).
    now rewrite IH.
Qed.

Lemma generateLandName_inj (i j : Z) :
  0 <= i -> 0 <= j ->
  MapClone.generateLandName i = MapClone.generateLandName j -> i = j.
Proof.
  intros Hi Hj E. apply toString_inj; [assumption|assumption|].
  rewrite <- (last_word_generateLandName i Hi), <- (last_word_generateLandName j Hj).
  now rewrite E.
Qed.

(** X12.  The display name ends in the decimal digits of the id, which
    hold no space: what follows the last space of the name is the id, so
    two different non-negative ids never share a name, and the generated
    lands have pairwise distinct names. *)
Theorem X12_names_distinct :
  (forall i, 0 <= i -> last_word (MapClone.generateLandName i) = JS.toString i) /\
  (forall i j, 0 <= i -> 0 <= j ->
     MapClone.generateLandName i = MapClone.generateLandName j -> i = j) /\
  (forall voronoi rng, NoDup (map MapClone.name (MapClone.lands voronoi rng))).
Proof.
  split; [exact last_word_generateLandName|]. split; [exact generateLandName_inj|].
  intros voronoi rng.
  pose proof (make_lands_eq) as M.
  unfold MapClone.lands.
  destruct (MapClone.random_points MapClone.LAND_COUNT rng 0) as [points k].
  rewrite M. cbn [fst]. rewrite map_map. cbn [MapClone.name].
  apply Injective_map_NoDup_in; [|apply NoDup_zrange].
  intros a b Ha Hb. apply in_zrange in Ha, Hb. apply generateLandName_inj; lia.
Qed.

Lemma X12_names_distinct_witness :
  last_word (MapClone.generateLandName 16) = JS.toString 16 /\
  (MapClone.generateLandName 6 = MapClone.generateLandName 16 -> 6 = 16).
Proof.
  split.
  - apply (proj1 X12_names_distinct 16). lia.
  - apply (proj1 (proj2 X12_names_distinct) 6 16); lia.
Defined.

(** ** The natural map: how much of it is water *)

Lemma length_filter_map {A : Type} (f : A -> bool) (l : list A) :
  List.length (filter f l) = List.length (filter (fun b : bool => b) (map f l)).
Proof.
  induction l as [|a l IH]; [reflexivity|].
  cbn [filter map]. destruct (f a); cbn [List.length]; now rewrite IH.
Qed.

Lemma natural_is_land (N : Z) (size gap : float) (rng : nat -> float) :
  map is_land (fst (Natural.generate N size gap rng))
  = grid_of N (fun x z => negb ((x <? 3) || (z >? 12))).
Proof.
  apply (nested_map (@fst (list Natural.Plot) nat) N
           (fun x z st =>
              let '(ty, k') := Natural.cell x z rng (snd st) in
              (fst st ++ [ {| Natural.id := plot_id x z;
                              Natural.position := plot_position N size gap x z;
                              Natural.type := ty |} ], k')));
    [reflexivity|].
  intros x z s. rewrite natural_push. eexists. split; [reflexivity|].
  unfold is_land, Natural.cell, JS.Math_random. cbn [Natural.type].
  destruct ((x <? 3) || (z >? 12)); [reflexivity|].
  now destruct (JS.gt (rng (snd s)) 0.9).
Qed.

(** The cells of one row that are not water. *)
Lemma land_row (x : Z) (n : nat) :
  List.length (filter (fun b : bool => b)
                 (map (fun z => negb ((x <? 3) || (z >? 12))) (zrange (Z.of_nat n))))
  = if x <? 3 then 0%nat else Z.to_nat (Z.min (Z.of_nat n) 13).
Proof.
  induction n as [|n IH]; [now destruct (x <? 3)|].
  rewrite Nat2Z.inj_succ, <- Z.add_1_r, zrange_succ, map_app, filter_app, length_app, IH by lia.
  cbn [map filter]. destruct (x <? 3); cbn [orb negb List.length]; [reflexivity|].
  destruct (Z.gtb_spec (Z.of_nat n) 12); cbn [negb List.length]; lia.
Qed.

Lemma land_rows (N : Z) (n : nat) :
  List.length (filter (fun b : bool => b)
                 (flat_map (fun x => map (fun z => negb ((x <? 3) || (z >? 12))) (zrange N))
                    (zrange (Z.of_nat n))))
  = (Z.to_nat (Z.of_nat n - 3) * Z.to_nat (Z.min N 13))%nat.
Proof.
  induction n as [|n IH]; [reflexivity|].
  rewrite Nat2Z.inj_succ, <- Z.add_1_r, zrange_succ, flat_map_app, filter_app, length_app, IH
    by lia.
  cbn [flat_map]. rewrite app_nil_r.
  destruct (Z_lt_dec N 0) as [Neg|Pos].
  - replace (zrange N) with (@nil Z) by (unfold zrange; now replace (Z.to_nat N) with 0%nat by lia).
    cbn [map filter List.length]. replace (Z.to_nat (Z.min N 13)) with 0%nat by lia. lia.
  - pose proof (land_row (Z.of_nat n) (Z.to_nat N)) as R.
    rewrite Z2Nat.id in R by lia. rewrite R.
    destruct (Z.ltb_spec (Z.of_nat n) 3); nia.
Qed.

Lemma natural_land_count (N : Z) (size gap : float) (rng : nat -> float) :
  List.length (filter is_land (fst (Natural.generate N size gap rng)))
  = (Z.to_nat (N - 3) * Z.to_nat (Z.min N 13))%nat.
Proof.
  rewrite length_filter_map, natural_is_land. unfold grid_of.
  destruct (Z_lt_dec N 0) as [Neg|Pos].
  - replace (zrange N) with (@nil Z) by (unfold zrange; now replace (Z.to_nat N) with 0%nat by lia).
    cbn. lia.
  - pose proof (land_rows N (Z.to_nat N)) as R.
    rewrite Z2Nat.id in R by lia. exact R.
Qed.

(** X15.  On the natural map the water is a fixed region, whatever the
    draws: of the [N * N] plots, those that are not water are the
    [(N - 3) * min(N, 13)] cells with [x >= 3] and [z <= 12], and the
    generator consumes exactly that many draws.  On the page, with its
    grid of 15, that is 156 plots of grass or dirt, 69 of water and 156
    calls of [Math.random()]. *)
Theorem X15_natural_land_count (N : Z) (size gap : float) (rng : nat -> float) :
  List.length (filter is_land (fst (Natural.generate N size gap rng)))
  = (Z.to_nat (N - 3) * Z.to_nat (Z.min N 13))%nat /\
  snd (Natural.generate N size gap rng)
  = (Z.to_nat (N - 3) * Z.to_nat (Z.min N 13))%nat /\
  List.length (Natural.landData rng) = 225%nat /\
  List.length (filter is_land (Natural.landData rng)) = 156%nat /\
  List.length (filter (fun p => negb (is_land p)) (Natural.landData rng)) = 69%nat.
Proof.
  split; [apply natural_land_count|].
  split; [rewrite natural_draws; apply natural_land_count|].
  assert (L : List.length (Natural.landData rng) = 225%nat).
  { unfold Natural.landData.
    rewrite <- (length_map Natural.id), natural_ids, length_grid_ids. reflexivity. }
  assert (F : List.length (filter is_land (Natural.landData rng)) = 156%nat).
  { unfold Natural.landData. rewrite natural_land_count. reflexivity. }
  split; [exact L|]. split; [exact F|].
  pose proof (filter_length is_land (Natural.landData rng)) as P. lia.
Qed.

(** ** The map-clone page: the random points and the bounds *)

(** Differences and opposites of doubles. *)

Lemma binary_round_aux_opp m e l :
  binary_round_aux prec emax true m e l
  = SFopp (binary_round_aux prec emax false m e l).
Proof.
  unfold binary_round_aux.
  destruct (shr_fexp prec emax m e l) as [mrs' e'].
  destruct (shr_fexp prec emax _ e' loc_Exact) as [mrs'' e''].
  destruct (shr_m mrs''); [reflexivity| |reflexivity].
  now destruct (e'' <=? emax - prec).
Qed.

Lemma binary_round_opp m e :
  binary_round prec emax true m e = SFopp (binary_round prec emax false m e).
Proof.
  unfold binary_round.
  destruct (shl_align m e _) as [mz ez]. apply binary_round_aux_opp.
Qed.

Lemma SFopp_involutive x : SFopp (SFopp x) = x.
Proof. destruct x as [s|s| |s m e]; cbn; now rewrite ?negb_involutive. Qed.

Lemma SFmul_opp_l x y : SF64mul (SFopp x) y = SFopp (SF64mul x y).
Proof.
  unfold SF64mul.
  destruct x as [sx|sx| |sx mx ex], y as [sy|sy| |sy my ey]; cbn [SFopp SFmul];
    try reflexivity; try (now destruct sx, sy).
  destruct sx, sy; cbn [negb xorb];
    rewrite ?binary_round_aux_opp, ?SFopp_involutive; reflexivity.
Qed.

(** Swapping the operands of a difference of two unequal non-negative
    doubles flips the sign. *)
Lemma SFsub_swap x y :
  nonneg x = true -> nonneg y = true ->
  valid_binary x = true -> valid_binary y = true ->
  val 1074 x < val 1074 y ->
  SF64sub x y = SFopp (SF64sub y x).
Proof.
  intros Nx Ny Vx Vy Hlt. unfold SF64sub.
  destruct x as [sx|sx| |sx mx ex], y as [sy|sy| |sy my ey]; try discriminate.
  - destruct sy; [discriminate|]. reflexivity.
  - pose proof (val_nonneg 1074 (S754_finite sx mx ex)).
    change (val 1074 (S754_zero sy)) with 0 in Hlt. lia.
  - destruct sx, sy; try discriminate.
    apply valid_finite in Vx, Vy. cbn [val] in Hlt.
    cbn [SFsub cond_Zopp]. rewrite (Z.min_comm ey ex).
    set (ez := Z.min ex ey).
    destruct (shl_align_val 1074 mx ex ez ltac:(lia) ltac:(lia)) as [Ax _].
    destruct (shl_align_val 1074 my ey ez ltac:(lia) ltac:(lia)) as [Ay _].
    assert (Sx : snd (shl_align mx ex ez) = ez).
    { unfold shl_align. destruct (ez - ex) eqn:E; cbn [snd]; lia. }
    assert (Sy : snd (shl_align my ey ez) = ez).
    { unfold shl_align. destruct (ez - ey) eqn:E; cbn [snd]; lia. }
    rewrite Sx in Ax. rewrite Sy in Ay.
    set (a := fst (shl_align mx ex ez)) in *. set (b := fst (shl_align my ey ez)) in *.
    assert (Hab : Zpos a <> Zpos b) by (intros E; rewrite E in Ax; lia).
    destruct (Zpos a - Zpos b) as [|p|p] eqn:D; [lia| |].
    + replace (Zpos b - Zpos a) with (Zneg p) by lia.
      cbn [binary_normalize]. now rewrite binary_round_opp, SFopp_involutive.
    + replace (Zpos b - Zpos a) with (Zpos p) by lia.
      cbn [binary_normalize]. apply binary_round_opp.
Qed.

(** The difference of two non-negative doubles, the larger first. *)
Lemma SFsub_val x y :
  nonneg x = true -> nonneg y = true ->
  valid_binary x = true -> valid_binary y = true ->
  val 1074 y <= val 1074 x -> val 1074 x < 2 ^ (1074 + 900) ->
  nonneg (SF64sub x y) = true /\
  val 1074 (SF64sub x y) = round 1074 (val 1074 x - val 1074 y).
Proof.
  intros Nx Ny Vx Vy Hle Hbig. unfold SF64sub.
  destruct x as [sx|sx| |sx mx ex] eqn:Ex, y as [sy|sy| |sy my ey] eqn:Ey;
    try discriminate.
  - cbn [val]. rewrite round_0. destruct sx, sy; auto.
  - apply valid_finite in Vy. pose proof (val_pos 1074 sy my ey ltac:(lia) Ny).
    cbn [val] in Hle. cbn [val] in H. destruct sy; [discriminate|]. lia.
  - rewrite <- Ex in *. replace (SFsub prec emax x (S754_zero sy)) with x by (subst x; reflexivity).
    cbn [val]. rewrite Z.sub_0_r, round_valid by assumption. auto.
  - destruct sx, sy; try discriminate.
    apply valid_finite in Vx, Vy. cbn [val] in Hbig, Hle |- *.
    cbn [SFsub cond_Zopp].
    set (ez := Z.min ex ey).
    destruct (shl_align_val 1074 mx ex ez ltac:(lia) ltac:(lia)) as [Ax _].
    destruct (shl_align_val 1074 my ey ez ltac:(lia) ltac:(lia)) as [Ay _].
    assert (Sx : snd (shl_align mx ex ez) = ez).
    { unfold shl_align. destruct (ez - ex) eqn:E; cbn [snd]; lia. }
    assert (Sy : snd (shl_align my ey ez) = ez).
    { unfold shl_align. destruct (ez - ey) eqn:E; cbn [snd]; lia. }
    rewrite Sx in Ax. rewrite Sy in Ay.
    set (a := fst (shl_align mx ex ez)) in *. set (b := fst (shl_align my ey ez)) in *.
    assert (P : 0 < 2 ^ (ez + 1074)) by (apply Z.pow_pos_nonneg; lia).
    assert (E : (Zpos a - Zpos b) * 2 ^ (ez + 1074)
                = Zpos mx * 2 ^ (ex + 1074) - Zpos my * 2 ^ (ey + 1074)).
    { rewrite Z.mul_sub_distr_r. congruence. }
    rewrite <- E in *.
    destruct (Zpos a - Zpos b) as [|p|p] eqn:D.
    + cbn [binary_normalize val nonneg]. rewrite Z.mul_0_l, round_0. auto.
    + cbn [binary_normalize]. apply binary_round_val; [lia|lia|].
      assert (Zpos p * 2 ^ (ez + 1074) <= Zpos a * 2 ^ (ez + 1074))
        by (apply Z.mul_le_mono_nonneg_r; lia).
      lia.
    + exfalso. assert (Zneg p * 2 ^ (ez + 1074) < 0) by (apply Z.mul_neg_pos; lia). lia.
Qed.

Lemma SFcompare_opp x y : SFcompare (SFopp x) (SFopp y) = SFcompare y x.
Proof.
  destruct x as [sx|sx| |sx mx ex], y as [sy|sy| |sy my ey]; cbn [SFopp SFcompare];
    try reflexivity; try (now destruct sx); try (now destruct sy);
    try (now destruct sx, sy).
  destruct sx, sy; cbn [negb]; try reflexivity.
  - rewrite (Z.compare_antisym ex ey). destruct (ex ?= ey); cbn [CompOpp]; try reflexivity.
    f_equal. symmetry. exact (Pos.compare_cont_antisym my mx Eq).
  - rewrite (Z.compare_antisym ex ey). destruct (ex ?= ey); cbn [CompOpp]; try reflexivity.
    f_equal. exact (Pos.compare_cont_antisym mx my Eq).
Qed.

(** The opposite of a non-negative double is below every positive one, and
    not above any non-negative one. *)
Lemma SFcompare_opp_nonneg x y :
  nonneg x = true -> nonneg y = true ->
  SFleb (SFopp x) y = true /\
  (SFltb (S754_zero false) y = true -> SFltb (SFopp x) y = true).
Proof.
  unfold SFleb, SFltb.
  destruct x as [sx|sx| |sx mx ex], y as [sy|sy| |sy my ey]; try discriminate;
    cbn [SFopp SFcompare nonneg]; auto.
  - destruct sy; [discriminate|auto].
  - destruct sx; [discriminate|auto].
  - destruct sx, sy; try discriminate; auto.
Qed.

Lemma sub_val x y : fnn x = true -> fnn y = true ->
  fv y <= fv x -> fv x < 2 ^ (1074 + 900) ->
  fnn (x - y) = true /\ fv (x - y) = round 1074 (fv x - fv y).
Proof.
  intros Nx Ny Hle Hbig. unfold fnn, fv in *. rewrite sub_spec.
  apply SFsub_val; auto using Prim2SF_valid.
Qed.

Lemma sub_swap x y : fnn x = true -> fnn y = true -> fv x < fv y ->
  Prim2SF (x - y) = SFopp (Prim2SF (y - x)).
Proof.
  intros Nx Ny Hlt. unfold fnn, fv in *. rewrite !sub_spec.
  apply SFsub_swap; auto using Prim2SF_valid.
Qed.

Lemma mul_opp a b c : Prim2SF a = SFopp (Prim2SF b) ->
  Prim2SF (a * c) = SFopp (Prim2SF (b * c)).
Proof. intros E. rewrite !mul_spec, E. apply SFmul_opp_l. Qed.

Lemma leb_opp_opp a b c d :
  Prim2SF a = SFopp (Prim2SF b) -> Prim2SF c = SFopp (Prim2SF d) ->
  (a <=? c)%float = (d <=? b)%float.
Proof.
  intros Ea Ec. rewrite !leb_spec. unfold SFleb. now rewrite Ea, Ec, SFcompare_opp.
Qed.

Lemma leb_opp_nonneg a b y :
  Prim2SF a = SFopp (Prim2SF b) -> fnn b = true -> fnn y = true ->
  (a <=? y)%float = true.
Proof.
  intros Ea Nb Ny. rewrite leb_spec, Ea. now apply SFcompare_opp_nonneg.
Qed.

Lemma ltb_opp_pos a b y :
  Prim2SF a = SFopp (Prim2SF b) -> fnn b = true -> fnn y = true ->
  (0 <? y)%float = true -> (a <? y)%float = true.
Proof.
  intros Ea Nb Ny Hy. rewrite ltb_spec, Ea. rewrite ltb_spec in Hy.
  now apply SFcompare_opp_nonneg.
Qed.

(** A product of non-negative doubles is monotone in its first factor. *)
Lemma mul_mono (r r' a : float) :
  fnn r = true -> fnn r' = true -> fnn a = true ->
  fv r <= fv r' -> fv r' * fv a < 2 ^ (2148 + 900) ->
  fnn (r * a) = true /\ fv (r * a) * 2 ^ 1074 <= round 2148 (fv r' * fv a).
Proof.
  intros Nr Nr' Na Hle Hbig.
  pose proof (fv_nonneg r). pose proof (fv_nonneg a).
  assert (Hprod : fv r * fv a <= fv r' * fv a) by (apply Z.mul_le_mono_nonneg_r; lia).
  destruct (mul_val r a Nr Na ltac:(lia)) as [Np Ep].
  split; [assumption|]. rewrite Ep. apply round_mono; [lia|].
  split; [apply Z.mul_nonneg_nonneg; lia|lia].
Qed.

(** The closed computations of the bound: [(1 - 2^-53) - 0.5] times 100
    stays below 50, and [0.5 - 0] times 100 is 50. *)
Lemma half_facts :
  fnn 0.5 = true /\ fnn 100 = true /\ fnn 50 = true /\
  fnn (pred_one - 0.5) = true /\
  fv pred_one < 2 ^ (1074 + 900) /\ fv 0.5 < 2 ^ (1074 + 900) /\
  round 1074 (fv 0.5) = fv 0.5 /\
  round 1074 (fv pred_one - fv 0.5) = fv (pred_one - 0.5) /\
  fv 0.5 * fv 100 < 2 ^ (2148 + 900) /\
  fv (pred_one - 0.5) * fv 100 < 2 ^ (2148 + 900) /\
  round 2148 (fv 0.5 * fv 100) <= fv 50 * 2 ^ 1074 /\
  round 2148 (fv (pred_one - 0.5) * fv 100) < fv 50 * 2 ^ 1074.
Proof. vm_compute. repeat split; discriminate. Qed.

(** [(r - 0.5) * MAP_SIZE] for a draw [r] in [0, 1). *)
Lemma coordinate_in_bounds (r : float) :
  (0 <=? r)%float = true -> (r <? 1)%float = true ->
  in_bounds ((r - 0.5) * MapClone.MAP_SIZE).
Proof.
  intros H0 H1. destruct (lt_one_le_pred r H0 H1) as [Nr Hp].
  rewrite leb_val in Hp by auto. apply Z.leb_le in Hp.
  destruct half_facts
    as (Nh & Nc & N50 & Nq & B1 & B2 & R1 & R2 & M1 & M2 & F1 & F2).
  pose proof (fv_nonneg r) as Pr.
  assert (P1074 : 0 < 2 ^ 1074) by (apply Z.pow_pos_nonneg; lia).
  unfold in_bounds.
  replace (- MapClone.MAP_SIZE / 2)%float with (- (50))%float by reflexivity.
  replace (MapClone.MAP_SIZE / 2)%float with 50%float by reflexivity.
  replace MapClone.MAP_SIZE with 100%float by reflexivity.
  assert (E50 : Prim2SF (- (50))%float = SFopp (Prim2SF 50)) by apply opp_spec.
  assert (Z50 : (0 <? 50)%float = true) by reflexivity.
  destruct (Z_lt_le_dec (fv r) (fv 0.5)) as [Lo|Hi].
  - destruct (sub_val 0.5 r Nh Nr (Z.lt_le_incl _ _ Lo) B2) as [Nb Eb].
    pose proof (sub_swap r 0.5 Nr Nh Lo) as Ea.
    assert (Hb : fv (0.5 - r) <= fv 0.5).
    { rewrite Eb. apply Z.le_trans with (round 1074 (fv 0.5)).
      - apply round_mono; [apply Z.le_refl|]. split.
        + apply Z.le_0_sub, Z.lt_le_incl, Lo.
        + apply Z.le_sub_nonneg, Pr.
      - rewrite R1. apply Z.le_refl. }
    destruct (mul_mono (0.5 - r) 0.5 100 Nb Nh Nc Hb M1) as [Nw Hw].
    pose proof (mul_opp (r - 0.5) (0.5 - r) 100 Ea) as Ev.
    split.
    + rewrite (leb_opp_opp _ _ _ _ E50 Ev), leb_val by assumption.
      apply Z.leb_le. apply (Z.mul_le_mono_pos_r _ _ (2 ^ 1074) P1074).
      exact (Z.le_trans _ _ _ Hw F1).
    + exact (ltb_opp_pos _ _ _ Ev Nw N50 Z50).
  - destruct (sub_val r 0.5 Nr Nh Hi (Z.le_lt_trans _ _ _ Hp B1)) as [Na Ea].
    assert (Ha : fv (r - 0.5) <= fv (pred_one - 0.5)).
    { rewrite Ea, <- R2. apply round_mono; [apply Z.le_refl|]. split.
      - apply Z.le_0_sub, Hi.
      - apply Z.sub_le_mono_r, Hp. }
    destruct (mul_mono (r - 0.5) (pred_one - 0.5) 100 Na Nq Nc Ha M2) as [Nv Hv].
    split.
    + exact (leb_opp_nonneg _ _ _ E50 N50 Nv).
    + rewrite ltb_val by assumption. apply Z.ltb_lt.
      apply (Z.mul_lt_mono_pos_r (2 ^ 1074) _ _ P1074).
      exact (Z.le_lt_trans _ _ _ Hv F2).
Qed.

(** X13.  With draws in [0, 1), every coordinate [(r - 0.5) * MAP_SIZE]
    of a random point lies inside the bounds the page hands to the
    Voronoi diagram: it is at least [-MAP_SIZE / 2] and strictly below
    [MAP_SIZE / 2], in double arithmetic. *)
Theorem X13_points_in_bounds (rng : nat -> float) (count : Z) (k : nat)
    (p : MapClone.point) :
  unit_draws rng -> In p (fst (MapClone.random_points count rng k)) ->
  in_bounds (fst p) /\ in_bounds (snd p).
Proof.
  intros U Hp. rewrite random_points_eq in Hp. cbn [fst] in Hp.
  apply in_map_iff in Hp as (i & <- & _). rewrite random_point_eq. cbn [fst snd].
  split; apply coordinate_in_bounds; apply U.
Qed.

Lemma X13_points_in_bounds_witness :
  let rng := fun _ : nat => 0.25%float in
  let p := ((-25)%float, (-25)%float) in
  in_bounds (fst p) /\ in_bounds (snd p).
Proof.
  intros rng p. apply (X13_points_in_bounds rng 2 0 p).
  - intros j. split; reflexivity.
  - vm_compute. left. reflexivity.
Defined.
